(** * Federated aggregation operators and the data-poisoning attack

    A shallow embedding of the aggregation operators of
    [federated_learning_basic_concepts_aggregation_operators.ipynb]
    ([FedAvgAggregator], [WeightedFedAvgAggregator],
    [ClusterFedAvgAggregator]) and of the attack of
    [federated_learning_attack_simulation_poisoning_data.ipynb]
    ([ShuffleNode], [FederatedPoisoningDataAttack]).

    The parameters the aggregators average are rationals ([Q]): that
    arithmetic is exact, the rounding of binary floating point is not
    modelled there.  The number of adversaries of the attack is computed in
    binary64, as Python computes it.  Python exceptions are values of [exn];
    a computation that may raise returns a [result]. *)

From Stdlib Require Import QArith Qfield.
From Stdlib Require Floats.
From stdpp Require Import base option list gmap.

Open Scope Q_scope.

(** ** Exceptions and fallible computations *)

(** The exceptions a caller can observe.  [IndexError], [ValueError],
    [AttributeError] and [OverflowError] are Python's own, raised by numpy,
    by the [random] module, by an attribute read on a missing object and by
    [int] on an infinite float.  [ShapeMismatch] is the error the
    specification names for disagreeing shapes; the notebooks define no such
    exception. *)
Inductive exn : Set :=
  | IndexError
  | ValueError
  | AttributeError
  | OverflowError
  | ShapeMismatch.

Inductive result (A : Type) : Type :=
  | Ok (a : A)
  | Raise (e : exn).
Arguments Ok {A} a.
Arguments Raise {A} e.

#[global] Instance result_ret : MRet result := @Ok.
#[global] Instance result_bind : MBind result := fun A B k r =>
  match r with
  | Ok a => k a
  | Raise e => Raise e
  end.

(** A list comprehension whose body may raise: the first exception wins. *)
Fixpoint comprehension {A B} (f : A -> result B) (xs : list A) : result (list B) :=
  match xs with
  | [] => Ok []
  | x :: xs' => y ← f x; ys ← comprehension f xs'; Ok (y :: ys)
  end.

(** [t[i]] on a tuple or a list. *)
Definition getitem {A} (t : list A) (i : nat) : result A :=
  match t !! i with
  | Some a => Ok a
  | None => Raise IndexError
  end.

(** ** Arrays *)

(** A parameter block is a one-dimensional array of numbers; its dimension
    is its length.  A node's parameter set is the ordered list of its
    blocks. *)
Abbreviation block := (list Q).
Abbreviation params := (list (list Q)).

(** [np.array(clients_params).shape], as far as the code reads it (entries 0
    and 1).  When every node has the same number of blocks numpy builds a
    table with one row per node and one column per block; the entries past 1,
    present when the blocks agree too, are never read.  From ragged input
    (nodes with different numbers of blocks) the numpy of the notebook's
    kernel builds a one-dimensional array of lists, and from the empty list
    an array of shape (0,). *)
Definition np_shape (clients_params : list params) : list nat :=
  match clients_params with
  | [] => [0%nat]
  | p :: ps =>
      if forallb (fun q => Nat.eqb (length q) (length p)) ps
      then [length clients_params; length p]
      else [length clients_params]
  end.

(** [clients_params_array[:, layer]]. *)
Definition column (clients_params_array : list params) (layer : nat)
  : result (list block) :=
  comprehension (fun p => getitem p layer) clients_params_array.

(** [a + b] on two one-dimensional arrays, with numpy's broadcasting: equal
    lengths add elementwise, an array of length 1 is stretched, anything else
    raises. *)
Definition np_add (a b : block) : result block :=
  if Nat.eqb (length a) (length b) then Ok (zip_with Qplus a b)
  else match a, b with
       | _, [y] => Ok (map (fun x => x + y) a)
       | [x], _ => Ok (map (fun y => x + y) b)
       | _, _ => Raise ValueError
       end.

(** The reduction [np.add.reduce] along axis 0 of a column, started from its
    first block. *)
Fixpoint add_reduce (acc : block) (rest : list block) : result block :=
  match rest with
  | [] => Ok acc
  | b :: rest' => s ← np_add acc b; add_reduce s rest'
  end.

(** [np.sum(col, axis=0)].  A column is never empty: its table has a row per
    node and the empty list of nodes has failed before. *)
Definition np_sum_axis0 (col : list block) : result block :=
  match col with
  | [] => Raise ValueError
  | b :: rest => add_reduce b rest
  end.

(** [np.mean(col, axis=0)]: the sum divided by the number of rows. *)
Definition np_mean_axis0 (col : list block) : result block :=
  s ← np_sum_axis0 col;
  Ok (map (fun x => x / inject_Z (Z.of_nat (length col))) s).

(** [w * row] for a number [w] and a row of blocks. *)
Definition scale_row (w : Q) (row : params) : params :=
  map (map (Qmult w)) row.

(** ** The aggregators *)

Module FedAvgAggregator.

Definition aggregate_weights (clients_params : list params) : result params :=
  let clients_params_array := clients_params in
  let shape := np_shape clients_params_array in
  num_clients ← getitem shape 0;
  num_layers ← getitem shape 1;
  comprehension
    (fun layer => col ← column clients_params_array layer; np_mean_axis0 col)
    (seq 0 num_layers).

End FedAvgAggregator.

Module WeightedFedAvgAggregator.

(** [_percentage] is set by the constructor of the base class
    [FederatedAggregator]; it holds one weight per node. *)
Record t := { _percentage : list Q }.

Definition aggregate_weights (self : t) (clients_params : list params)
  : result params :=
  let clients_params_array := clients_params in
  let shape := np_shape clients_params_array in
  num_clients ← getitem shape 0;
  num_layers ← getitem shape 1;
  ponderated_weights ←
    comprehension
      (fun client =>
         w ← getitem (_percentage self) client;
         row ← getitem clients_params_array client;
         Ok (scale_row w row))
      (seq 0 num_clients);
  comprehension
    (fun layer => col ← column ponderated_weights layer; np_sum_axis0 col)
    (seq 0 num_layers).

End WeightedFedAvgAggregator.

Example fedavg_two_nodes :
  FedAvgAggregator.aggregate_weights [[[2; 4]; [1]]; [[4; 8]; [3]]]
  = Ok [[(2 + 4) / 2; (4 + 8) / 2]; [(1 + 3) / 2]].
Proof. reflexivity. Qed.

(** ** Shapes, entries and equality of parameter sets *)

(** The shape of a parameter set: the dimension of each of its blocks. *)
Definition dims (p : params) : list nat := map length p.

(** All nodes have the same number of blocks and the same block dimensions. *)
Definition identical_shape (clients_params : list params) : Prop :=
  forall p q, p ∈ clients_params -> q ∈ clients_params -> dims p = dims q.

Definition has_shape (s : list nat) (clients_params : list params) : Prop :=
  Forall (fun p => dims p = s) clients_params.

(** Entry [j] of block [layer]. *)
Definition entry (p : params) (layer j : nat) : Q := nth j (nth layer p []) 0.

Definition Qsum (l : list Q) : Q := foldr Qplus 0 l.

(** Equality of parameter sets in exact arithmetic: same shape and equal
    numbers. *)
Definition block_eq : relation block := Forall2 Qeq.
Definition params_eq : relation params := Forall2 block_eq.

Definition result_eq (r1 r2 : result params) : Prop :=
  match r1, r2 with
  | Ok p1, Ok p2 => params_eq p1 p2
  | Raise e1, Raise e2 => e1 = e2
  | _, _ => False
  end.

(** The elementwise arithmetic mean of [clients_params] at one entry:
    (1 / n_C) * sum of W_i over the n_C clients. *)
Definition mean_entry (clients_params : list params) (layer j : nat) : Q :=
  (1 / inject_Z (Z.of_nat (length clients_params)))
  * Qsum (map (fun p => entry p layer j) clients_params).

(** The weighted sum of [clients_params] at one entry. *)
Definition weighted_entry (ws : list Q) (clients_params : list params)
    (layer j : nat) : Q :=
  Qsum (zip_with (fun w p => w * entry p layer j) ws clients_params).

(** [w / sum(w)]. *)
Definition normalize (ws : list Q) : list Q := map (fun w => w / Qsum ws) ws.

Section Helpers.

Lemma comprehension_ext {A B} (f g : A -> result B) xs :
  (forall x, x ∈ xs -> f x = g x) -> comprehension f xs = comprehension g xs.
Proof.
  induction xs as [|x xs IH]; intros H; [done|].
  simpl. rewrite (H x) by left. rewrite IH; [done|].
  intros y Hy. apply H. by right.
Qed.

Lemma comprehension_map {A B} (f : A -> result B) (g : A -> B) xs :
  (forall x, x ∈ xs -> f x = Ok (g x)) -> comprehension f xs = Ok (map g xs).
Proof.
  induction xs as [|x xs IH]; intros Hf; [done|].
  simpl. rewrite Hf; [|left]. simpl. rewrite IH; [done|].
  intros y Hy. apply Hf. by right.
Qed.

Lemma comprehension_raise {A B} (f : A -> result B) e x xs :
  f x = Raise e -> comprehension f (x :: xs) = Raise e.
Proof. intros Hf. simpl. by rewrite Hf. Qed.

Lemma has_shape_identical s cps : has_shape s cps -> identical_shape cps.
Proof.
  intros Hs p q Hp Hq. unfold has_shape in Hs. rewrite Forall_forall in Hs.
  by rewrite (Hs p Hp), (Hs q Hq).
Qed.

Lemma identical_has_shape p cps :
  identical_shape (p :: cps) -> has_shape (dims p) (p :: cps).
Proof.
  intros Hid. apply Forall_forall. intros q Hq. apply Hid; [done|left].
Qed.

Lemma has_shape_length s p cps : has_shape s cps -> p ∈ cps -> length p = length s.
Proof.
  intros Hs Hp. unfold has_shape in Hs. rewrite Forall_forall in Hs.
  rewrite <- (Hs p Hp). unfold dims. by rewrite length_map.
Qed.

Lemma has_shape_block s p cps layer :
  has_shape s cps -> p ∈ cps -> length (nth layer p []) = nth layer s 0%nat.
Proof.
  intros Hs Hp. unfold has_shape in Hs. rewrite Forall_forall in Hs.
  rewrite <- (Hs p Hp). unfold dims.
  change 0%nat with (length (@nil Q)). by rewrite map_nth.
Qed.

Lemma np_shape_regular s p cps :
  has_shape s (p :: cps) -> np_shape (p :: cps) = [S (length cps); length s].
Proof.
  intros Hs. unfold np_shape.
  assert (forallb (fun q => Nat.eqb (length q) (length p)) cps = true) as ->.
  { apply forallb_forall. intros q Hq. apply Nat.eqb_eq.
    apply list_elem_of_In in Hq.
    rewrite (has_shape_length s q (p :: cps)), (has_shape_length s p (p :: cps));
      auto; [left | by right]. }
  simpl. f_equal. f_equal. apply (has_shape_length s p (p :: cps)); [done|left].
Qed.

Lemma getitem_nth {A} (l : list A) i d : (i < length l)%nat -> getitem l i = Ok (nth i l d).
Proof.
  intros Hi. unfold getitem.
  destruct (l !! i) as [a|] eqn:E.
  - f_equal. symmetry. by apply nth_lookup_Some.
  - apply lookup_ge_None in E. lia.
Qed.

Lemma column_regular s cps layer :
  has_shape s cps -> (layer < length s)%nat ->
  column cps layer = Ok (map (fun p => nth layer p []) cps).
Proof.
  intros Hs Hl. unfold column. apply comprehension_map.
  intros p Hp. apply getitem_nth. by rewrite (has_shape_length s p cps).
Qed.

End Helpers.

(** ** Sums and means of regular columns *)

(** The value [add_reduce] returns on blocks of one dimension. *)
Definition sum_blocks (acc : block) (rest : list block) : block :=
  foldl (zip_with Qplus) acc rest.

Section Columns.

Lemma Qsum_cons x l : Qsum (x :: l) = x + Qsum l.
Proof. reflexivity. Qed.

Lemma np_add_same a b :
  length a = length b -> np_add a b = Ok (zip_with Qplus a b).
Proof. intros H. unfold np_add. by rewrite H, Nat.eqb_refl. Qed.

Lemma nth_zip_with_Qplus a b j :
  length a = length b ->
  nth j (zip_with Qplus a b) 0 == nth j a 0 + nth j b 0.
Proof.
  revert b j. induction a as [|x a IH]; intros [|y b] j H; simplify_eq/=.
  - destruct j; ring.
  - destruct j; [reflexivity|]. by apply IH.
Qed.

Lemma add_reduce_regular d acc rest :
  length acc = d -> Forall (fun b => length b = d) rest ->
  add_reduce acc rest = Ok (sum_blocks acc rest).
Proof.
  revert acc. induction rest as [|b rest IH]; intros acc Hacc Hrest; [done|].
  inversion_clear Hrest as [|? ? Hb Hrest']. simpl.
  rewrite np_add_same by congruence. simpl. apply IH; [|done].
  rewrite length_zip_with. lia.
Qed.

Lemma sum_blocks_length d acc rest :
  length acc = d -> Forall (fun b => length b = d) rest ->
  length (sum_blocks acc rest) = d.
Proof.
  revert acc. induction rest as [|b rest IH]; intros acc Hacc Hrest; [done|].
  inversion_clear Hrest as [|? ? Hb Hrest']. simpl. apply IH; [|done].
  rewrite length_zip_with. lia.
Qed.

Lemma sum_blocks_nth d acc rest j :
  length acc = d -> Forall (fun b => length b = d) rest ->
  nth j (sum_blocks acc rest) 0
  == nth j acc 0 + Qsum (map (fun b => nth j b 0) rest).
Proof.
  revert acc. induction rest as [|b rest IH]; intros acc Hacc Hrest.
  - simpl. ring.
  - inversion_clear Hrest as [|? ? Hb Hrest']. simpl sum_blocks.
    rewrite IH; [|rewrite length_zip_with; lia|done].
    rewrite nth_zip_with_Qplus by congruence.
    rewrite map_cons, Qsum_cons. ring.
Qed.

Lemma nth_map_Q (f : Q -> Q) s j :
  f 0 == 0 -> nth j (map f s) 0 == f (nth j s 0).
Proof.
  intros Hf. revert j. induction s as [|x s IH]; intros [|j]; simpl.
  - by symmetry.
  - by symmetry.
  - reflexivity.
  - apply IH.
Qed.

Lemma inject_nat_nonzero n : (0 < n)%nat -> ~ inject_Z (Z.of_nat n) == 0.
Proof.
  intros Hn H. unfold Qeq in H. simpl in H. lia.
Qed.

(** Equality of parameter sets from equality of entries. *)
Lemma block_eq_pointwise (a b : block) :
  length a = length b ->
  (forall j, (j < length a)%nat -> nth j a 0 == nth j b 0) ->
  block_eq a b.
Proof.
  revert b. induction a as [|x a IH]; intros [|y b] Hlen H; simplify_eq/=.
  - constructor.
  - constructor.
    + apply (H 0%nat). lia.
    + apply IH; [done|]. intros j Hj. apply (H (S j)). lia.
Qed.

Lemma params_eq_pointwise (r1 r2 : params) :
  dims r1 = dims r2 ->
  (forall layer j, (layer < length r1)%nat ->
     entry r1 layer j == entry r2 layer j) ->
  params_eq r1 r2.
Proof.
  revert r2. induction r1 as [|a r1 IH]; intros [|b r2] Hd H; simplify_eq/=.
  - constructor.
  - constructor.
    + apply block_eq_pointwise; [done|]. intros j _. apply (H 0%nat j). lia.
    + apply IH; [done|]. intros layer j Hl. apply (H (S layer) j). lia.
Qed.

Lemma Qsum_Permutation l1 l2 : l1 ≡ₚ l2 -> Qsum l1 == Qsum l2.
Proof.
  induction 1 as [|x l1 l2 _ IH|x y l|l1 l2 l3 _ IH1 _ IH2].
  - reflexivity.
  - rewrite !Qsum_cons. by rewrite IH.
  - rewrite !Qsum_cons. ring.
  - by rewrite IH1.
Qed.

End Columns.

(** ** What the two averaging operators compute on regular input *)

(** The aggregate of [FedAvgAggregator] on nodes [p :: cps] of shape [s]:
    per block, the sum of the column divided by the number of nodes. *)
Definition mean_blocks (s : list nat) (p : params) (cps : list params) : params :=
  map (fun layer =>
         map (fun x => x / inject_Z (Z.of_nat (S (length cps))))
             (sum_blocks (nth layer p []) (map (fun q => nth layer q []) cps)))
      (seq 0 (length s)).

(** The aggregate of [WeightedFedAvgAggregator] on rows already weighted. *)
Definition sum_rows (s : list nat) (p : params) (cps : list params) : params :=
  map (fun layer => sum_blocks (nth layer p []) (map (fun q => nth layer q []) cps))
      (seq 0 (length s)).

Section Regular.

Lemma nth_map_seq {A} (g : nat -> A) L layer d :
  (layer < L)%nat -> nth layer (map g (seq 0 L)) d = g layer.
Proof.
  intros Hl. apply nth_lookup_Some.
  rewrite list_lookup_fmap, lookup_seq_lt by done. reflexivity.
Qed.

Lemma map_seq_nth (s : list nat) (g : nat -> nat) :
  (forall i, (i < length s)%nat -> g i = nth i s 0%nat) ->
  map g (seq 0 (length s)) = s.
Proof.
  intros Hg. apply (nth_ext _ _ 0%nat 0%nat).
  - by rewrite length_map, length_seq.
  - intros n Hn. rewrite length_map, length_seq in Hn.
    rewrite nth_map_seq by done. by apply Hg.
Qed.

Lemma column_lengths s p cps layer :
  has_shape s (p :: cps) ->
  length (nth layer p []) = nth layer s 0%nat
  /\ Forall (fun b => length b = nth layer s 0%nat)
            (map (fun q => nth layer q []) cps).
Proof.
  intros Hs. split.
  - apply (has_shape_block s p (p :: cps)); [done|left].
  - apply Forall_forall. intros b Hb. apply list_elem_of_fmap in Hb as (q & -> & Hq).
    apply (has_shape_block s q (p :: cps)); [done|by right].
Qed.

Lemma FedAvg_regular s p cps :
  has_shape s (p :: cps) ->
  FedAvgAggregator.aggregate_weights (p :: cps) = Ok (mean_blocks s p cps).
Proof.
  intros Hs. unfold FedAvgAggregator.aggregate_weights.
  rewrite (np_shape_regular s) by done. simpl.
  apply comprehension_map. intros layer Hl. apply elem_of_seq in Hl.
  rewrite (column_regular s) by (done || lia). simpl.
  destruct (column_lengths s p cps layer Hs) as [Hp Hcol].
  unfold np_mean_axis0. simpl.
  rewrite (add_reduce_regular _ _ _ Hp Hcol). simpl.
  by rewrite length_map.
Qed.

Lemma mean_blocks_dims s p cps :
  has_shape s (p :: cps) -> dims (mean_blocks s p cps) = s.
Proof.
  intros Hs. unfold dims, mean_blocks. rewrite map_map.
  apply map_seq_nth. intros layer Hl. rewrite length_map.
  destruct (column_lengths s p cps layer Hs) as [Hp Hcol].
  by apply sum_blocks_length.
Qed.

Lemma mean_blocks_entry s p cps layer j :
  has_shape s (p :: cps) -> (layer < length s)%nat ->
  entry (mean_blocks s p cps) layer j == mean_entry (p :: cps) layer j.
Proof.
  intros Hs Hl. unfold entry at 1, mean_blocks.
  rewrite nth_map_seq by done.
  rewrite nth_map_Q by (unfold Qdiv; ring).
  destruct (column_lengths s p cps layer Hs) as [Hp Hcol].
  rewrite (sum_blocks_nth _ _ _ j Hp Hcol).
  unfold mean_entry. rewrite map_cons, Qsum_cons, map_map.
  unfold entry. simpl length.
  field. apply inject_nat_nonzero. lia.
Qed.

End Regular.

Section Weighted.

Lemma scale_row_dims w (q : params) : dims (scale_row w q) = dims q.
Proof.
  unfold dims, scale_row. rewrite map_map. apply map_ext.
  intros b. by rewrite length_map.
Qed.

Lemma scale_row_entry w (q : params) layer j :
  entry (scale_row w q) layer j == w * entry q layer j.
Proof.
  unfold entry, scale_row.
  change (@nil Q) with (map (Qmult w) []) at 1. rewrite map_nth.
  apply nth_map_Q. ring.
Qed.

Lemma zip_with_seq {A B C} (f : A -> B -> C) (ws : list A) (l : list B) dA dB :
  (length l <= length ws)%nat ->
  map (fun i => f (nth i ws dA) (nth i l dB)) (seq 0 (length l)) = zip_with f ws l.
Proof.
  intros Hlen. apply list_eq. intros i.
  rewrite list_lookup_fmap, lookup_zip_with.
  destruct (decide (i < length l)%nat) as [Hi|Hi].
  - rewrite lookup_seq_lt by done. simpl.
    destruct (lookup_lt_is_Some_2 ws i) as [a Ha]; [lia|].
    destruct (lookup_lt_is_Some_2 l i) as [b Hb]; [lia|].
    rewrite Ha, Hb. simpl.
    by rewrite (nth_lookup_Some _ _ dA _ Ha), (nth_lookup_Some _ _ dB _ Hb).
  - rewrite lookup_seq_ge by lia. simpl.
    rewrite (proj2 (lookup_ge_None l i)) by lia.
    by destruct (ws !! i).
Qed.

Lemma ponderated_regular ws (cps : list params) :
  (length cps <= length ws)%nat ->
  comprehension
    (fun client =>
       w ← getitem ws client; row ← getitem cps client; Ok (scale_row w row))
    (seq 0 (length cps))
  = Ok (zip_with scale_row ws cps).
Proof.
  intros Hlen. rewrite <- (zip_with_seq scale_row ws cps 0 []) by done.
  apply comprehension_map. intros i Hi. apply elem_of_seq in Hi.
  rewrite (getitem_nth ws i 0) by lia. simpl.
  rewrite (getitem_nth cps i []) by lia. reflexivity.
Qed.

Lemma has_shape_scaled s ws (cps : list params) :
  has_shape s cps -> has_shape s (zip_with scale_row ws cps).
Proof.
  intros Hs. revert ws. induction Hs as [|q cps Hq _ IH]; intros [|w ws];
    try constructor.
  - by rewrite scale_row_dims.
  - apply IH.
Qed.

Lemma Weighted_regular s w ws p cps :
  has_shape s (p :: cps) -> (length cps <= length ws)%nat ->
  WeightedFedAvgAggregator.aggregate_weights
    {| WeightedFedAvgAggregator._percentage := w :: ws |} (p :: cps)
  = Ok (sum_rows s (scale_row w p) (zip_with scale_row ws cps)).
Proof.
  intros Hs Hlen. unfold WeightedFedAvgAggregator.aggregate_weights.
  rewrite (np_shape_regular s) by done.
  cbn [getitem lookup list_lookup mbind result_bind
       WeightedFedAvgAggregator._percentage].
  change (S (length cps)) with (length (p :: cps)).
  rewrite ponderated_regular by (simpl; lia).
  cbn [mbind result_bind zip_with].
  assert (has_shape s (scale_row w p :: zip_with scale_row ws cps)) as Hs'.
  { apply (has_shape_scaled s (w :: ws) (p :: cps) Hs). }
  apply comprehension_map. intros layer Hl. apply elem_of_seq in Hl.
  rewrite (column_regular s) by (done || lia).
  cbn [mbind result_bind map np_sum_axis0].
  destruct (column_lengths s _ _ layer Hs') as [Hp Hcol].
  apply (add_reduce_regular _ _ _ Hp Hcol).
Qed.

Lemma sum_rows_dims s p cps :
  has_shape s (p :: cps) -> dims (sum_rows s p cps) = s.
Proof.
  intros Hs. unfold dims, sum_rows. rewrite map_map.
  apply map_seq_nth. intros layer Hl.
  destruct (column_lengths s p cps layer Hs) as [Hp Hcol].
  by apply sum_blocks_length.
Qed.

Lemma sum_rows_entry s p cps layer j :
  has_shape s (p :: cps) -> (layer < length s)%nat ->
  entry (sum_rows s p cps) layer j
  == Qsum (map (fun q => entry q layer j) (p :: cps)).
Proof.
  intros Hs Hl. unfold entry at 1, sum_rows.
  rewrite nth_map_seq by done.
  destruct (column_lengths s p cps layer Hs) as [Hp Hcol].
  rewrite (sum_blocks_nth _ _ _ j Hp Hcol).
  rewrite map_cons, Qsum_cons, map_map. reflexivity.
Qed.

Lemma Qsum_scaled_rows ws (cps : list params) layer j :
  Qsum (map (fun q => entry q layer j) (zip_with scale_row ws cps))
  == weighted_entry ws cps layer j.
Proof.
  unfold weighted_entry. revert cps.
  induction ws as [|w ws IH]; intros [|p cps]; try reflexivity.
  cbn [zip_with map]. rewrite !Qsum_cons, scale_row_entry. by rewrite IH.
Qed.

Lemma weighted_regular_entry s w ws p cps layer j :
  has_shape s (p :: cps) -> (layer < length s)%nat ->
  entry (sum_rows s (scale_row w p) (zip_with scale_row ws cps)) layer j
  == weighted_entry (w :: ws) (p :: cps) layer j.
Proof.
  intros Hs Hl.
  rewrite sum_rows_entry;
    [|apply (has_shape_scaled s (w :: ws) (p :: cps) Hs)|done].
  apply (Qsum_scaled_rows (w :: ws) (p :: cps)).
Qed.

End Weighted.

(** ** Properties of the averaging operators *)

Section AveragingLemmas.

Lemma dims_length (p : params) : length (dims p) = length p.
Proof. unfold dims. by rewrite length_map. Qed.

Lemma sum_rows_length s p cps : length (sum_rows s p cps) = length s.
Proof. unfold sum_rows. by rewrite length_map, length_seq. Qed.

Lemma mean_blocks_length s p cps : length (mean_blocks s p cps) = length s.
Proof. unfold mean_blocks. by rewrite length_map, length_seq. Qed.

Lemma has_shape_Permutation s (cps cps' : list params) :
  cps ≡ₚ cps' -> has_shape s cps -> has_shape s cps'.
Proof. intros Hp. unfold has_shape. by rewrite Hp. Qed.

Lemma mean_entry_Permutation (cps cps' : list params) layer j :
  cps ≡ₚ cps' -> mean_entry cps layer j == mean_entry cps' layer j.
Proof.
  intros Hp. unfold mean_entry.
  rewrite (Permutation_length Hp).
  rewrite (Qsum_Permutation _ _ (fmap_Permutation (fun p => entry p layer j) _ _ Hp)).
  reflexivity.
Qed.

Lemma weighted_entry_uniform c (cps : list params) layer j :
  weighted_entry (replicate (length cps) c) cps layer j
  == c * Qsum (map (fun p => entry p layer j) cps).
Proof.
  unfold weighted_entry. induction cps as [|p cps IH].
  - simpl. ring.
  - cbn [length replicate zip_with map]. rewrite !Qsum_cons, IH. ring.
Qed.

Lemma weighted_entry_scale s ws (cps : list params) layer j :
  ~ s == 0 ->
  weighted_entry ws cps layer j
  == s * weighted_entry (map (fun w => w / s) ws) cps layer j.
Proof.
  intros Hs. unfold weighted_entry. revert cps.
  induction ws as [|w ws IH]; intros [|p cps]; try (simpl; ring).
  cbn [zip_with map]. rewrite !Qsum_cons, IH. by field.
Qed.

End AveragingLemmas.

(** C1: on a non-empty list of node parameter sets of identical shape,
    [FedAvgAggregator.aggregate_weights] returns an aggregate [W] of that
    shape whose every entry is the arithmetic mean of the nodes' entries,
    W = (1 / n_C) * sum of W_i. *)
Theorem fedavg_is_elementwise_mean (clients_params : list params) :
  clients_params ≠ [] -> identical_shape clients_params ->
  exists W,
    FedAvgAggregator.aggregate_weights clients_params = Ok W
    /\ (forall p, p ∈ clients_params -> dims W = dims p)
    /\ forall layer j, (layer < length W)%nat ->
         entry W layer j == mean_entry clients_params layer j.
Proof.
  intros Hne Hid. destruct clients_params as [|p cps]; [done|].
  pose proof (identical_has_shape _ _ Hid) as Hs.
  exists (mean_blocks (dims p) p cps). split; [by apply FedAvg_regular|].
  split.
  - intros q Hq. rewrite mean_blocks_dims by done. apply Hid; [left|done].
  - intros layer j Hl. rewrite mean_blocks_length in Hl.
    by apply mean_blocks_entry.
Qed.

Lemma fedavg_is_elementwise_mean_witness :
  exists W,
    FedAvgAggregator.aggregate_weights [[[2; 4]; [1]]; [[4; 8]; [3]]] = Ok W
    /\ (forall p, p ∈ [[[2; 4]; [1]]; [[4; 8]; [3]]] -> dims W = dims p)
    /\ forall layer j, (layer < length W)%nat ->
         entry W layer j == mean_entry [[[2; 4]; [1]]; [[4; 8]; [3]]] layer j.
Proof.
  apply fedavg_is_elementwise_mean; [discriminate|].
  apply (has_shape_identical [2; 1]%nat). repeat constructor.
Defined.

(** C5: Mean aggregation does not depend on the order of the nodes: on a
    non-empty list of identical shape and any permutation of it, both calls
    return an aggregate and the two are equal. *)
Theorem fedavg_order_independent (clients_params permuted : list params) :
  clients_params ≠ [] -> identical_shape clients_params ->
  clients_params ≡ₚ permuted ->
  exists W W',
    FedAvgAggregator.aggregate_weights clients_params = Ok W
    /\ FedAvgAggregator.aggregate_weights permuted = Ok W'
    /\ params_eq W W'.
Proof.
  intros Hne Hid Hperm. destruct clients_params as [|p cps]; [done|].
  destruct permuted as [|p' cps'].
  { by apply Permutation_nil_r in Hperm. }
  pose proof (identical_has_shape _ _ Hid) as Hs.
  pose proof (has_shape_Permutation _ _ _ Hperm Hs) as Hs'.
  exists (mean_blocks (dims p) p cps), (mean_blocks (dims p) p' cps').
  split; [by apply FedAvg_regular|]. split; [by apply FedAvg_regular|].
  apply params_eq_pointwise.
  - by rewrite !mean_blocks_dims.
  - intros layer j Hl. rewrite mean_blocks_length in Hl.
    rewrite !mean_blocks_entry by done. by apply mean_entry_Permutation.
Qed.

Lemma fedavg_order_independent_witness :
  exists W W',
    FedAvgAggregator.aggregate_weights [[[2; 4]; [1]]; [[4; 8]; [3]]; [[0; 3]; [5]]] = Ok W
    /\ FedAvgAggregator.aggregate_weights [[[0; 3]; [5]]; [[2; 4]; [1]]; [[4; 8]; [3]]] = Ok W'
    /\ params_eq W W'.
Proof.
  apply fedavg_order_independent; [discriminate| |].
  - apply (has_shape_identical [2; 1]%nat). repeat constructor.
  - symmetry. apply (Permutation_cons_append [[[2; 4]; [1]]; [[4; 8]; [3]]]).
Defined.

(** C3, as the code has it: WeightedMean uses the weights as they are given,
    so it agrees with Mean for the uniform weights that sum to 1, that is for
    the weight 1 / n_C on each of the n_C nodes: on a non-empty list of
    identical shape both operators return an aggregate and the two are
    equal. *)
Theorem weighted_uniform_is_mean (c : Q) (clients_params : list params) :
  clients_params ≠ [] -> identical_shape clients_params ->
  let n := length clients_params in
  c * inject_Z (Z.of_nat n) == 1 ->
  exists W W',
    WeightedFedAvgAggregator.aggregate_weights
      {| WeightedFedAvgAggregator._percentage := replicate n c |}
      clients_params = Ok W
    /\ FedAvgAggregator.aggregate_weights clients_params = Ok W'
    /\ params_eq W W'.
Proof.
  intros Hne Hid n Hc. subst n. destruct clients_params as [|p cps]; [done|].
  pose proof (identical_has_shape _ _ Hid) as Hs.
  cbn [length replicate] in *.
  exists (sum_rows (dims p) (scale_row c p)
            (zip_with scale_row (replicate (length cps) c) cps)),
         (mean_blocks (dims p) p cps).
  split; [apply Weighted_regular; [done|by rewrite length_replicate]|].
  split; [by apply FedAvg_regular|].
  apply params_eq_pointwise.
  - rewrite mean_blocks_dims by done. apply sum_rows_dims.
    apply (has_shape_scaled _ (c :: replicate (length cps) c) _ Hs).
  - intros layer j Hl. rewrite sum_rows_length in Hl.
    rewrite weighted_regular_entry, mean_blocks_entry by done.
    rewrite (weighted_entry_uniform c (p :: cps)). unfold mean_entry.
    apply Qmult_comp; [|reflexivity]. cbn [length].
    assert (~ inject_Z (Z.of_nat (S (length cps))) == 0) as Hn
      by (apply inject_nat_nonzero; lia).
    rewrite <- Hc. by field.
Qed.

Lemma weighted_uniform_is_mean_witness :
  exists W W',
    WeightedFedAvgAggregator.aggregate_weights
      {| WeightedFedAvgAggregator._percentage := [1 / 2; 1 / 2] |}
      [[[2; 4]; [1]]; [[4; 8]; [3]]] = Ok W
    /\ FedAvgAggregator.aggregate_weights [[[2; 4]; [1]]; [[4; 8]; [3]]] = Ok W'
    /\ params_eq W W'.
Proof.
  apply (weighted_uniform_is_mean (1 / 2) [[[2; 4]; [1]]; [[4; 8]; [3]]]);
    [discriminate| |reflexivity].
  apply (has_shape_identical [2; 1]%nat). repeat constructor.
Defined.

(** C3 as stated fails for uniform weights that do not sum to 1: with the
    weight 1 on each of two nodes WeightedMean returns the sum [6], Mean
    returns [3]. *)
Lemma weighted_uniform_unnormalized_differs :
  let cps := [[[2]]; [[4]]] in
  cps ≠ [] /\ identical_shape cps
  /\ WeightedFedAvgAggregator.aggregate_weights
       {| WeightedFedAvgAggregator._percentage := replicate (length cps) 1 |} cps
     = Ok [[1 * 2 + 1 * 4]]
  /\ FedAvgAggregator.aggregate_weights cps = Ok [[(2 + 4) / 2]]
  /\ ~ result_eq
         (WeightedFedAvgAggregator.aggregate_weights
            {| WeightedFedAvgAggregator._percentage := replicate (length cps) 1 |} cps)
         (FedAvgAggregator.aggregate_weights cps).
Proof.
  cbv zeta. split; [discriminate|]. split.
  { apply (has_shape_identical [1]%nat). repeat constructor. }
  split; [reflexivity|]. split; [reflexivity|].
  intros H. cbv in H.
  inversion H as [|? ? ? ? Hb _]; subst. inversion Hb as [|? ? ? ? Hq _]; subst.
  discriminate Hq.
Qed.

(** C2, as the code has it: WeightedMean uses the weights as they are given
    and does not normalize them.  For one weight per node with a positive
    sum, the aggregate under [w] is [sum(w)] times the aggregate under
    [w / sum(w)]; the two aggregates are equal when the weights sum to 1. *)
Theorem weighted_scales_with_weight_sum (ws : list Q) (clients_params : list params) :
  clients_params ≠ [] -> identical_shape clients_params ->
  length ws = length clients_params -> 0 < Qsum ws ->
  exists W W',
    WeightedFedAvgAggregator.aggregate_weights
      {| WeightedFedAvgAggregator._percentage := ws |} clients_params = Ok W
    /\ WeightedFedAvgAggregator.aggregate_weights
         {| WeightedFedAvgAggregator._percentage := normalize ws |}
         clients_params = Ok W'
    /\ params_eq W (scale_row (Qsum ws) W')
    /\ (Qsum ws == 1 -> params_eq W W').
Proof.
  intros Hne Hid Hlen Hpos. destruct clients_params as [|p cps]; [done|].
  destruct ws as [|w ws]; [done|]. injection Hlen as Hlen.
  pose proof (identical_has_shape _ _ Hid) as Hs.
  set (t := Qsum (w :: ws)) in *.
  assert (~ t == 0) as Ht by (intros E; rewrite E in Hpos; by apply Qlt_irrefl in Hpos).
  unfold normalize. fold t. cbn [map].
  eexists _, _.
  split; [apply (Weighted_regular (dims p)); [done|lia]|].
  split; [apply (Weighted_regular (dims p)); [done|rewrite length_map; lia]|].
  assert (has_shape (dims p) (scale_row w p :: zip_with scale_row ws cps)) as Hs1
    by apply (has_shape_scaled _ (w :: ws) _ Hs).
  assert (has_shape (dims p)
            (scale_row (w / t) p
             :: zip_with scale_row (map (fun x => x / t) ws) cps)) as Hs2
    by apply (has_shape_scaled _ (map (fun x => x / t) (w :: ws)) _ Hs).
  assert (forall layer j, (layer < length (dims p))%nat ->
    entry (sum_rows (dims p) (scale_row w p) (zip_with scale_row ws cps)) layer j
    == t * entry (sum_rows (dims p) (scale_row (w / t) p)
                    (zip_with scale_row (map (fun x => x / t) ws) cps)) layer j)
    as Hentry.
  { intros layer j Hl. rewrite !weighted_regular_entry by done.
    apply (weighted_entry_scale t (w :: ws) (p :: cps) layer j Ht). }
  split.
  - apply params_eq_pointwise.
    + rewrite scale_row_dims. by rewrite (sum_rows_dims _ _ _ Hs1), (sum_rows_dims _ _ _ Hs2).
    + intros layer j Hl. rewrite sum_rows_length in Hl.
      rewrite scale_row_entry. by apply Hentry.
  - intros Hone. apply params_eq_pointwise.
    + by rewrite (sum_rows_dims _ _ _ Hs1), (sum_rows_dims _ _ _ Hs2).
    + intros layer j Hl. rewrite sum_rows_length in Hl.
      rewrite (Hentry layer j Hl).
      rewrite (Qmult_comp _ _ Hone _ _ (Qeq_refl _)). ring.
Qed.

Lemma weighted_scales_with_weight_sum_witness :
  exists W W',
    WeightedFedAvgAggregator.aggregate_weights
      {| WeightedFedAvgAggregator._percentage := [1; 3] |}
      [[[2; 4]; [1]]; [[4; 8]; [3]]] = Ok W
    /\ WeightedFedAvgAggregator.aggregate_weights
         {| WeightedFedAvgAggregator._percentage := normalize [1; 3] |}
         [[[2; 4]; [1]]; [[4; 8]; [3]]] = Ok W'
    /\ params_eq W (scale_row (Qsum [1; 3]) W')
    /\ (Qsum [1; 3] == 1 -> params_eq W W').
Proof.
  apply weighted_scales_with_weight_sum; [discriminate| |reflexivity|reflexivity].
  apply (has_shape_identical [2; 1]%nat). repeat constructor.
Defined.

(** C2 as stated fails: with the weights [1; 1] (sum 2) on two nodes the
    aggregate is the plain sum [6], with the normalized weights it is the
    mean [3]. *)
Lemma weighted_does_not_normalize :
  let cps := [[[2]]; [[4]]] in
  let ws := [1; 1] in
  cps ≠ [] /\ identical_shape cps /\ 0 < Qsum ws
  /\ WeightedFedAvgAggregator.aggregate_weights
       {| WeightedFedAvgAggregator._percentage := ws |} cps = Ok [[1 * 2 + 1 * 4]]
  /\ WeightedFedAvgAggregator.aggregate_weights
       {| WeightedFedAvgAggregator._percentage := normalize ws |} cps
     = Ok [[1 / (1 + (1 + 0)) * 2 + 1 / (1 + (1 + 0)) * 4]]
  /\ ~ result_eq
         (WeightedFedAvgAggregator.aggregate_weights
            {| WeightedFedAvgAggregator._percentage := ws |} cps)
         (WeightedFedAvgAggregator.aggregate_weights
            {| WeightedFedAvgAggregator._percentage := normalize ws |} cps).
Proof.
  cbv zeta. split; [discriminate|]. split.
  { apply (has_shape_identical [1]%nat). repeat constructor. }
  split; [reflexivity|]. split; [reflexivity|]. split; [reflexivity|].
  intros H. cbv in H.
  inversion H as [|? ? ? ? Hb _]; subst. inversion Hb as [|? ? ? ? Hq _]; subst.
  discriminate Hq.
Qed.

(** ** Input whose shapes disagree *)

(** Two nodes differ in their number of blocks. *)
Definition counts_differ (clients_params : list params) : Prop :=
  exists p q, p ∈ clients_params /\ q ∈ clients_params /\ length p ≠ length q.

Section Disagreement.

Lemma forallb_exists_false {A} (f : A -> bool) l :
  forallb f l = false -> exists x, In x l /\ f x = false.
Proof.
  induction l as [|x l IH]; simpl; [done|].
  destruct (f x) eqn:E; simpl.
  - intros H. destruct (IH H) as (y & Hy & Hf). eauto.
  - intros _. eauto.
Qed.

Lemma np_shape_cases p (ps : list params) :
  (np_shape (p :: ps) = [S (length ps); length p]
   /\ forall q, q ∈ p :: ps -> length q = length p)
  \/ (np_shape (p :: ps) = [S (length ps)] /\ counts_differ (p :: ps)).
Proof.
  unfold np_shape.
  destruct (forallb (fun q => Nat.eqb (length q) (length p)) ps) eqn:E.
  - left. split; [done|]. intros q Hq. apply elem_of_cons in Hq as [->|Hq]; [done|].
    rewrite forallb_forall in E. apply Nat.eqb_eq, E. by apply list_elem_of_In.
  - right. split; [done|].
    destruct (forallb_exists_false _ _ E) as (q & Hq & Hne).
    exists q, p. split; [right; by apply list_elem_of_In|]. split; [left|].
    by apply Nat.eqb_neq.
Qed.

Lemma np_add_cases a b : np_add a b = Raise ValueError \/ exists c, np_add a b = Ok c.
Proof.
  unfold np_add. destruct (Nat.eqb (length a) (length b)); [eauto|].
  destruct a as [|x [|x' a]], b as [|y [|y' b]]; eauto.
Qed.

Lemma add_reduce_cases rest : forall acc,
  add_reduce acc rest = Raise ValueError \/ exists c, add_reduce acc rest = Ok c.
Proof.
  induction rest as [|b rest IH]; intros acc; simpl; [eauto|].
  destruct (np_add_cases acc b) as [->|[c ->]]; simpl; [by left|apply IH].
Qed.

Lemma comprehension_cases {A B} (f : A -> result B) xs :
  (forall x, x ∈ xs -> f x = Raise ValueError \/ exists y, f x = Ok y) ->
  comprehension f xs = Raise ValueError \/ exists ys, comprehension f xs = Ok ys.
Proof.
  induction xs as [|x xs IH]; intros Hf; simpl; [eauto|].
  destruct (Hf x) as [->|[y ->]]; [left|by left|]. simpl.
  destruct IH as [->|[ys ->]]; simpl; eauto.
  intros z Hz. apply Hf. by right.
Qed.

Lemma FedAvg_cases (clients_params : list params) :
  clients_params ≠ [] ->
  (counts_differ clients_params ->
     FedAvgAggregator.aggregate_weights clients_params = Raise IndexError)
  /\ (~ counts_differ clients_params ->
        FedAvgAggregator.aggregate_weights clients_params = Raise ValueError
        \/ exists W, FedAvgAggregator.aggregate_weights clients_params = Ok W).
Proof.
  intros Hne. destruct clients_params as [|p ps]; [done|].
  unfold FedAvgAggregator.aggregate_weights.
  destruct (np_shape_cases p ps) as [[-> Hlen]|[-> Hdiff]].
  - split.
    + intros (q1 & q2 & H1 & H2 & Hd). by rewrite (Hlen q1), (Hlen q2) in Hd.
    + intros _. cbn [getitem lookup list_lookup mbind result_bind].
      apply comprehension_cases. intros layer Hl. apply elem_of_seq in Hl.
      unfold column. rewrite (comprehension_map _ (fun q => nth layer q [])).
      * cbn [mbind result_bind map]. unfold np_mean_axis0, np_sum_axis0.
        destruct (add_reduce_cases (map (fun q => nth layer q []) ps) (nth layer p []))
          as [->|[c ->]]; simpl; eauto.
      * intros q Hq. apply getitem_nth. rewrite (Hlen q Hq). lia.
  - split; [done|]. intros Hno. by destruct Hno.
Qed.

End Disagreement.

(** ** Blocks that broadcast *)

(** Entry [j] of a block stretched by broadcasting: a block of length 1
    shows its only entry at every place. *)
Definition stretched (b : block) (j : nat) : Q :=
  if Nat.eqb (length b) 1 then nth 0 b 0 else nth j b 0.

(** The blocks of a column broadcast to the dimension [d]: each has length
    [d] or 1, and one of them has length [d]. *)
Definition broadcast_to (d : nat) (col : list block) : Prop :=
  Forall (fun b => length b = d \/ length b = 1%nat) col
  /\ Exists (fun b => length b = d) col.

(** The blocks the nodes hold at one layer. *)
Definition blocks_at (clients_params : list params) (layer : nat) : list block :=
  map (fun p => nth layer p []) clients_params.

(** The mean of the nodes' stretched blocks at one entry. *)
Definition broadcast_mean_entry (clients_params : list params) (layer j : nat) : Q :=
  (1 / inject_Z (Z.of_nat (length clients_params)))
  * Qsum (map (fun p => stretched (nth layer p []) j) clients_params).

Section Broadcasting.

Lemma broadcast_to_unique d d' col :
  broadcast_to d col -> broadcast_to d' col -> d = d'.
Proof.
  intros [Hall Hex] [Hall' Hex'].
  apply Exists_exists in Hex as (b & Hb & Hlen).
  apply Exists_exists in Hex' as (b' & Hb' & Hlen').
  rewrite Forall_forall in Hall, Hall'.
  destruct (Hall' b Hb) as [?|?], (Hall b' Hb') as [?|?]; lia.
Qed.

Lemma nth_map_in {A B} (f : A -> B) (l : list A) j dA dB :
  (j < length l)%nat -> nth j (map f l) dB = f (nth j l dA).
Proof.
  intros Hj. rewrite (nth_indep _ dB (f dA)) by (by rewrite length_map).
  apply map_nth.
Qed.

Lemma np_add_stretch_r (a : block) y :
  length a ≠ 1%nat -> np_add a [y] = Ok (map (fun x => x + y) a).
Proof.
  intros Hlen. unfold np_add.
  destruct (Nat.eqb (length a) (length [y])) eqn:E.
  - apply Nat.eqb_eq in E. simpl in E. lia.
  - by destruct a as [|x [|x' a]].
Qed.

Lemma np_add_stretch_l x (b : block) :
  length b ≠ 1%nat -> np_add [x] b = Ok (map (fun y => x + y) b).
Proof.
  intros Hlen. unfold np_add.
  destruct (Nat.eqb (length [x]) (length b)) eqn:E.
  - apply Nat.eqb_eq in E. simpl in E. lia.
  - destruct b as [|y [|y' b]]; simpl in *; done.
Qed.

Lemma length_1_inv (b : block) : length b = 1%nat -> exists x, b = [x].
Proof. destruct b as [|x [|? ?]]; intros; simplify_eq/=. eauto. Qed.

Lemma np_add_broadcast d (a b : block) :
  (length a = d \/ length a = 1%nat) -> (length b = d \/ length b = 1%nat) ->
  exists s, np_add a b = Ok s
    /\ (length s = d \/ length s = 1%nat)
    /\ (length a = d \/ length b = d -> length s = d)
    /\ forall j, (j < d)%nat -> stretched s j == stretched a j + stretched b j.
Proof.
  intros Ha Hb.
  destruct (decide (length a = length b)) as [Heq|Hne].
  - exists (zip_with Qplus a b). split; [by apply np_add_same|].
    assert (length (zip_with Qplus a b) = length a) as Hlen
      by (rewrite length_zip_with; lia).
    split; [by rewrite Hlen|]. split; [rewrite Hlen; lia|].
    intros j Hj. unfold stretched. rewrite Hlen, <- Heq.
    destruct (Nat.eqb (length a) 1); by apply nth_zip_with_Qplus.
  - destruct (decide (length b = 1%nat)) as [Hb1|Hb1].
    + destruct (length_1_inv b Hb1) as [y ->].
      assert (length a ≠ 1%nat) as Ha1 by (simpl in Hne; lia).
      assert (length a = d) as Had by lia.
      exists (map (fun x => x + y) a). split; [by apply np_add_stretch_r|].
      rewrite length_map. split; [by left|]. split; [done|].
      intros j Hj. unfold stretched. rewrite length_map.
      destruct (Nat.eqb (length a) 1) eqn:E; [apply Nat.eqb_eq in E; lia|].
      simpl. rewrite (nth_map_in _ a j 0 0) by lia. reflexivity.
    + assert (length b = d) as Hbd by lia.
      assert (length a = 1%nat) as Ha1 by lia.
      destruct (length_1_inv a Ha1) as [x ->].
      exists (map (fun y => x + y) b). split; [by apply np_add_stretch_l|].
      rewrite length_map. split; [by left|]. split; [done|].
      intros j Hj. unfold stretched. rewrite length_map.
      destruct (Nat.eqb (length b) 1) eqn:E; [apply Nat.eqb_eq in E; lia|].
      simpl. rewrite (nth_map_in _ b j 0 0) by lia. reflexivity.
Qed.

Lemma add_reduce_broadcast d rest : forall acc,
  (length acc = d \/ length acc = 1%nat) ->
  Forall (fun b => length b = d \/ length b = 1%nat) rest ->
  (length acc = d \/ Exists (fun b => length b = d) rest) ->
  exists r, add_reduce acc rest = Ok r /\ length r = d
    /\ forall j, (j < d)%nat ->
         nth j r 0 == stretched acc j + Qsum (map (fun b => stretched b j) rest).
Proof.
  induction rest as [|b rest IH]; intros acc Hacc Hrest Hd.
  - assert (length acc = d) as Hlen.
    { destruct Hd as [?|Hex]; [done|]. by apply Exists_nil in Hex. }
    exists acc. split; [done|]. split; [done|].
    intros j Hj. unfold stretched. simpl.
    destruct (Nat.eqb (length acc) 1) eqn:E.
    + apply Nat.eqb_eq in E. assert (j = 0%nat) as -> by lia. ring.
    + ring.
  - inversion_clear Hrest as [|? ? Hb Hrest'].
    destruct (np_add_broadcast d acc b Hacc Hb) as (s & Es & Hs & Hsd & Hentry).
    cbn [add_reduce]. rewrite Es. cbn [mbind result_bind].
    destruct (IH s Hs Hrest') as (r & Er & Hlen & Hr).
    { destruct Hd as [?|Hex]; [left; auto|].
      apply Exists_cons in Hex as [?|?]; [left; auto|by right]. }
    exists r. split; [done|]. split; [done|].
    intros j Hj. rewrite (Hr j Hj), (Hentry j Hj).
    rewrite map_cons, Qsum_cons. ring.
Qed.

Lemma np_add_lengths (a b s : block) :
  np_add a b = Ok s ->
  (length s = length a /\ (length b = length a \/ length b = 1%nat))
  \/ (length s = length b /\ length a = 1%nat).
Proof.
  unfold np_add. destruct (Nat.eqb (length a) (length b)) eqn:E.
  - apply Nat.eqb_eq in E. intros [= <-]. left.
    rewrite length_zip_with. split; [lia|left; lia].
  - destruct a as [|x [|x' a]], b as [|y [|y' b]]; try done;
      intros [= <-]; simpl; rewrite ?length_map; lia.
Qed.

Lemma add_reduce_ok_broadcast rest : forall acc r,
  add_reduce acc rest = Ok r -> broadcast_to (length r) (acc :: rest).
Proof.
  induction rest as [|b rest IH]; intros acc r.
  - intros [= <-]. split; [repeat constructor|by left].
  - cbn [add_reduce]. destruct (np_add acc b) as [s|e] eqn:Es; [|done].
    cbn [mbind result_bind]. intros Er.
    destruct (IH s r Er) as [Hall Hex].
    apply Forall_cons in Hall as [Hs Hall].
    apply np_add_lengths in Es.
    assert ((length acc = length r \/ length acc = 1%nat)
            /\ (length b = length r \/ length b = 1%nat)) as [Ha Hb] by lia.
    split; [by apply Forall_cons_2; [|apply Forall_cons_2]|].
    apply Exists_cons in Hex as [Hsr|Hex].
    + destruct (decide (length acc = length r)); [by left|].
      right. left. lia.
    + by do 2 right.
Qed.

Lemma comprehension_Forall2 {A B} (f : A -> result B) (P : A -> B -> Prop) xs :
  (forall x, x ∈ xs -> exists y, f x = Ok y /\ P x y) ->
  exists ys, comprehension f xs = Ok ys /\ Forall2 P xs ys.
Proof.
  induction xs as [|x xs IH]; intros H.
  - exists []. by split.
  - destruct (H x) as (y & Ey & Hy); [left|].
    destruct IH as (ys & Eys & Hys); [intros z Hz; apply H; by right|].
    exists (y :: ys). simpl. rewrite Ey. simpl. rewrite Eys. by split; [|constructor].
Qed.

Lemma comprehension_some_raise {A B} (f : A -> result B) xs :
  (forall x, x ∈ xs -> f x = Raise ValueError \/ exists y, f x = Ok y) ->
  (exists x, x ∈ xs /\ f x = Raise ValueError) ->
  comprehension f xs = Raise ValueError.
Proof.
  induction xs as [|x xs IH]; intros Hall (x0 & Hin & Hx0).
  - by apply elem_of_nil in Hin.
  - simpl. destruct (Hall x) as [->|[y Ey]]; [left|done|].
    rewrite Ey. simpl. rewrite IH; [done| |].
    + intros z Hz. apply Hall. by right.
    + apply elem_of_cons in Hin as [->|Hin]; [congruence|eauto].
Qed.

Lemma column_same_counts p (ps : list params) layer :
  (forall q, q ∈ p :: ps -> length q = length p) -> (layer < length p)%nat ->
  column (p :: ps) layer = Ok (blocks_at (p :: ps) layer).
Proof.
  intros Hlen Hl. unfold column, blocks_at. apply comprehension_map.
  intros q Hq. apply getitem_nth. rewrite (Hlen q Hq). lia.
Qed.

Lemma FedAvg_same_counts p (ps : list params) :
  (forall q, q ∈ p :: ps -> length q = length p) ->
  FedAvgAggregator.aggregate_weights (p :: ps)
  = comprehension
      (fun layer => np_mean_axis0 (blocks_at (p :: ps) layer))
      (seq 0 (length p)).
Proof.
  intros Hlen. unfold FedAvgAggregator.aggregate_weights.
  destruct (np_shape_cases p ps) as [[-> _]|[_ Hdiff]].
  - cbn [getitem lookup list_lookup mbind result_bind].
    apply comprehension_ext. intros layer Hl. apply elem_of_seq in Hl.
    rewrite column_same_counts by (done || lia). done.
  - destruct Hdiff as (q1 & q2 & H1 & H2 & Hd).
    by rewrite (Hlen q1), (Hlen q2) in Hd.
Qed.

Lemma np_mean_broadcast d b0 (rest : list block) :
  broadcast_to d (b0 :: rest) ->
  exists W, np_mean_axis0 (b0 :: rest) = Ok W /\ length W = d
    /\ forall j, (j < d)%nat ->
         nth j W 0
         == (1 / inject_Z (Z.of_nat (S (length rest))))
            * Qsum (map (fun b => stretched b j) (b0 :: rest)).
Proof.
  intros [Hall Hex]. apply Forall_cons in Hall as [Hb0 Hall].
  destruct (add_reduce_broadcast d rest b0 Hb0 Hall) as (r & Er & Hlen & Hr).
  { apply Exists_cons in Hex as [?|?]; auto. }
  unfold np_mean_axis0, np_sum_axis0. rewrite Er. cbn [mbind result_bind].
  eexists. split; [done|]. rewrite length_map. split; [done|].
  intros j Hj.
  rewrite (nth_map_in _ r j 0 0) by lia. rewrite (Hr j Hj).
  rewrite map_cons, Qsum_cons. cbn [length].
  field. apply inject_nat_nonzero. lia.
Qed.

Lemma np_mean_not_broadcast b0 (rest : list block) :
  ~ (exists d, broadcast_to d (b0 :: rest)) ->
  np_mean_axis0 (b0 :: rest) = Raise ValueError.
Proof.
  intros Hno. unfold np_mean_axis0, np_sum_axis0.
  destruct (add_reduce_cases rest b0) as [->|[r Er]]; [done|].
  exfalso. apply Hno. exists (length r). by apply add_reduce_ok_broadcast.
Qed.

Lemma np_mean_cases (col : list block) :
  np_mean_axis0 col = Raise ValueError \/ exists W, np_mean_axis0 col = Ok W.
Proof.
  unfold np_mean_axis0, np_sum_axis0. destruct col as [|b0 rest]; [by left|].
  destruct (add_reduce_cases rest b0) as [->|[r ->]]; [by left|right]. simpl. eauto.
Qed.

End Broadcasting.

(** C4, as the code has it: the aggregator checks no shapes and never raises
    [ShapeMismatch]; numpy decides.  On nodes that differ in their number of
    blocks it raises [IndexError] and produces no aggregate.  On nodes with
    the same number of blocks whose block dimensions differ, the blocks of
    each layer are added under numpy's broadcasting: when at every layer the
    blocks broadcast to one dimension (each has that dimension or is of
    length 1) an aggregate is returned, whose block at each layer has that
    dimension and whose entries are the means of the stretched blocks; when
    at some layer they do not, [ValueError] is raised and there is no
    aggregate. *)
Theorem fedavg_shape_disagreement (clients_params : list params) :
  ~ identical_shape clients_params ->
  let num_layers := length (hd [] clients_params) in
  (counts_differ clients_params ->
     FedAvgAggregator.aggregate_weights clients_params = Raise IndexError)
  /\ (~ counts_differ clients_params ->
      (forall layer, (layer < num_layers)%nat ->
         exists d, broadcast_to d (blocks_at clients_params layer)) ->
      exists W,
        FedAvgAggregator.aggregate_weights clients_params = Ok W
        /\ length W = num_layers
        /\ forall layer d,
             (layer < num_layers)%nat ->
             broadcast_to d (blocks_at clients_params layer) ->
             length (nth layer W []) = d
             /\ forall j, (j < d)%nat ->
                  entry W layer j == broadcast_mean_entry clients_params layer j)
  /\ (~ counts_differ clients_params ->
      (exists layer, (layer < num_layers)%nat
         /\ ~ exists d, broadcast_to d (blocks_at clients_params layer)) ->
      FedAvgAggregator.aggregate_weights clients_params = Raise ValueError)
  /\ FedAvgAggregator.aggregate_weights clients_params ≠ Raise ShapeMismatch.
Proof.
  intros Hdis num_layers.
  assert (clients_params ≠ []) as Hne.
  { intros ->. apply Hdis. intros p q Hp. by apply elem_of_nil in Hp. }
  destruct clients_params as [|p ps]; [done|]. cbn [hd] in num_layers.
  destruct (FedAvg_cases (p :: ps) Hne) as [Hdiff Hsame].
  assert (~ counts_differ (p :: ps) ->
          forall q, q ∈ p :: ps -> length q = length p) as Hcounts.
  { intros Hno q Hq. destruct (decide (length q = length p)) as [|Hd]; [done|].
    exfalso. apply Hno. exists q, p. split; [done|]. split; [left|done]. }
  split; [done|]. split; [|split].
  - intros Hno Hall. rewrite (FedAvg_same_counts p ps (Hcounts Hno)).
    destruct (comprehension_Forall2
                (fun layer => np_mean_axis0 (blocks_at (p :: ps) layer))
                (fun layer (blk : block) =>
                   forall d, broadcast_to d (blocks_at (p :: ps) layer) ->
                     length blk = d
                     /\ forall j, (j < d)%nat ->
                          nth j blk 0 == broadcast_mean_entry (p :: ps) layer j)
                (seq 0 (length p))) as (W & EW & HW).
    { intros layer Hl. apply elem_of_seq in Hl.
      destruct (Hall layer) as [d0 Hd0]; [unfold num_layers; lia|].
      destruct (np_mean_broadcast d0 (nth layer p [])
                  (map (fun q => nth layer q []) ps) Hd0)
        as (blk & Eblk & Hlen & Hentry).
      exists blk. split; [done|]. intros d Hd.
      assert (d = d0) as -> by (by eapply broadcast_to_unique).
      split; [done|]. intros j Hj. rewrite (Hentry j Hj).
      unfold broadcast_mean_entry. cbn [length map].
      rewrite length_map, map_map. reflexivity. }
    exists W. split; [done|].
    pose proof (Forall2_length _ _ _ HW) as HlenW. rewrite length_seq in HlenW.
    split; [done|]. intros layer d Hl Hd.
    assert (exists blk, W !! layer = Some blk) as [blk Hblk]
      by (apply lookup_lt_is_Some_2; unfold num_layers in Hl; lia).
    pose proof (Forall2_lookup_lr _ _ _ layer layer blk HW) as HP.
    rewrite lookup_seq_lt in HP by done. specialize (HP eq_refl Hblk d Hd).
    unfold entry. rewrite (nth_lookup_Some _ _ [] _ Hblk). exact HP.
  - intros Hno (layer & Hl & Hbad). rewrite (FedAvg_same_counts p ps (Hcounts Hno)).
    apply comprehension_some_raise.
    + intros l _. apply np_mean_cases.
    + exists layer. split; [apply elem_of_seq; unfold num_layers in Hl; lia|].
      unfold blocks_at in *. cbn [map] in *. by apply np_mean_not_broadcast.
  - destruct (np_shape_cases p ps) as [[_ Hlen]|[_ Hd]].
    + destruct Hsame as [E|[W E]]; [|by rewrite E|by rewrite E].
      intros (q1 & q2 & H1 & H2 & Hd). by rewrite (Hlen q1), (Hlen q2) in Hd.
    + by rewrite (Hdiff Hd).
Qed.

Lemma not_identical_shape (p q : params) (cps : list params) :
  p ∈ cps -> q ∈ cps -> dims p ≠ dims q -> ~ identical_shape cps.
Proof. intros Hp Hq Hd Hid. by apply Hd, Hid. Qed.

Lemma fedavg_shape_disagreement_witness :
  let clients_params := [[[1; 2; 3]]; [[5]]] in
  let num_layers := length (hd [] clients_params) in
  (counts_differ clients_params ->
     FedAvgAggregator.aggregate_weights clients_params = Raise IndexError)
  /\ (~ counts_differ clients_params ->
      (forall layer, (layer < num_layers)%nat ->
         exists d, broadcast_to d (blocks_at clients_params layer)) ->
      exists W,
        FedAvgAggregator.aggregate_weights clients_params = Ok W
        /\ length W = num_layers
        /\ forall layer d,
             (layer < num_layers)%nat ->
             broadcast_to d (blocks_at clients_params layer) ->
             length (nth layer W []) = d
             /\ forall j, (j < d)%nat ->
                  entry W layer j == broadcast_mean_entry clients_params layer j)
  /\ (~ counts_differ clients_params ->
      (exists layer, (layer < num_layers)%nat
         /\ ~ exists d, broadcast_to d (blocks_at clients_params layer)) ->
      FedAvgAggregator.aggregate_weights clients_params = Raise ValueError)
  /\ FedAvgAggregator.aggregate_weights clients_params ≠ Raise ShapeMismatch.
Proof.
  apply (fedavg_shape_disagreement [[[1; 2; 3]]; [[5]]]).
  apply (not_identical_shape [[1; 2; 3]] [[5]]); [left | right; left | discriminate].
Defined.

(** C4 as stated fails.  Two nodes whose only blocks have dimensions 3 and 1
    disagree in shape, and an aggregate is returned: the shorter block is
    broadcast.  Two nodes with two blocks and one block make the aggregator
    raise [IndexError], not [ShapeMismatch]. *)
Lemma fedavg_aggregates_disagreeing_shapes :
  ~ identical_shape [[[1; 2; 3]]; [[5]]]
  /\ FedAvgAggregator.aggregate_weights [[[1; 2; 3]]; [[5]]]
     = Ok [[(1 + 5) / 2; (2 + 5) / 2; (3 + 5) / 2]]
  /\ ~ identical_shape [[[1; 2]; [3]]; [[4; 5]]]
  /\ FedAvgAggregator.aggregate_weights [[[1; 2]; [3]]; [[4; 5]]] = Raise IndexError.
Proof.
  split; [|split; [reflexivity|split; [|reflexivity]]].
  - apply (not_identical_shape [[1; 2; 3]] [[5]]); [left | right; left | discriminate].
  - apply (not_identical_shape [[1; 2]; [3]] [[4; 5]]);
      [left | right; left | discriminate].
Qed.

(** Block dimensions 3 and 1 disagree and an aggregate is returned all the
    same: the shorter block is broadcast. *)
Example fedavg_broadcasts_blocks :
  ~ identical_shape [[[1; 2; 3]]; [[5]]]
  /\ FedAvgAggregator.aggregate_weights [[[1; 2; 3]]; [[5]]]
     = Ok [[(1 + 5) / 2; (2 + 5) / 2; (3 + 5) / 2]].
Proof.
  split; [|reflexivity].
  apply (not_identical_shape [[1; 2; 3]] [[5]]); [left | right; left | discriminate].
Qed.

(** ** Computations over ambient state *)

(** A computation that reads and updates a state [S] and may raise.  The
    state reached before an exception is kept, as in Python. *)
Definition M (S A : Type) : Type := S -> result A * S.

#[global] Instance M_ret {S} : MRet (M S) := fun A a s => (Ok a, s).
#[global] Instance M_bind {S} : MBind (M S) := fun A B k m s =>
  match m s with
  | (Ok a, s') => k a s'
  | (Raise e, s') => (Raise e, s')
  end.

(** A computation that leaves the state alone. *)
Definition pure_result {S A} (r : result A) : M S A := fun s => (r, s).

(** ** Cluster federated averaging *)

Module ClusterFedAvgAggregator.
Section WithKMeans.

(** A centroid is a point of the feature space; a node's centroid array has
    one row per centroid. *)
Context {point : Type}.

(** The state of numpy's global random generator. *)
Context {rng : Type}.

(** [KMeans(n_clusters=k, init='k-means++').fit(X).cluster_centers_] of
    scikit-learn.  No [random_state] is passed, so the seeding draws from the
    global generator and advances it. *)
Variable KMeans_fit : nat -> list point -> M rng (list point).

(** [np.concatenate] along axis 0; it refuses an empty sequence of arrays. *)
Definition np_concatenate (arrays : list (list point)) : result (list point) :=
  match arrays with
  | [] => Raise ValueError
  | _ => Ok (concat arrays)
  end.

Definition aggregate_weights (clients_params : list (list point))
  : M rng (list point) :=
  clients_params_array ← pure_result (np_concatenate clients_params);
  first ← pure_result (getitem clients_params 0);
  let n_clusters := length first in
  aggregated_weights ← KMeans_fit n_clusters clients_params_array;
  mret aggregated_weights.

(** Two aggregations of the same input, one after the other. *)
Definition aggregate_twice (clients_params : list (list point))
  : M rng (list point * list point) :=
  W1 ← aggregate_weights clients_params;
  W2 ← aggregate_weights clients_params;
  mret (W1, W2).

(** [np.random.seed(seed)] puts the global generator in the state [init seed]. *)
Variable init : nat -> rng.

Definition np_random_seed (seed : nat) : M rng unit :=
  fun _ => (Ok tt, init seed).

(** The same two aggregations, the global generator re-seeded before each. *)
Definition aggregate_twice_reseeded (seed : nat) (clients_params : list (list point))
  : M rng (list point * list point) :=
  _ ← np_random_seed seed;
  W1 ← aggregate_weights clients_params;
  _ ← np_random_seed seed;
  W2 ← aggregate_weights clients_params;
  mret (W1, W2).

End WithKMeans.
End ClusterFedAvgAggregator.

(** A stand-in for scikit-learn's [KMeans(...).fit(X).cluster_centers_], to
    run the aggregator on examples.  Points are rows of numbers.  As
    scikit-learn does, it refuses more clusters than points, starts from
    [k] of the given points chosen from the generator state, advances the
    generator, and runs Lloyd's iterations: every point goes to its nearest
    centre (the first one on a tie, as [argmin] has it) and every centre
    becomes the mean of its points.  The centres returned are cluster means,
    in the order of the starting centres.  It makes one run of [max_iter]
    iterations; scikit-learn stops once the centres no longer move, which
    gives the same centres. *)
Definition sq_dist (a b : list Q) : Q :=
  Qsum (zip_with (fun x y => (x - y) * (x - y)) a b).

Fixpoint argmin_from (best : nat) (best_d : Q) (i : nat) (ds : list Q) : nat :=
  match ds with
  | [] => best
  | d :: ds' =>
      if Qle_bool best_d d then argmin_from best best_d (S i) ds'
      else argmin_from i d (S i) ds'
  end.

Definition nearest (centres : list (list Q)) (x : list Q) : nat :=
  match map (sq_dist x) centres with
  | [] => 0%nat
  | d :: ds => argmin_from 0 d 1 ds
  end.

Definition rows_mean (rows : list (list Q)) : list Q :=
  match rows with
  | [] => []
  | r :: rest =>
      map (fun s => Qred (s / inject_Z (Z.of_nat (length rows))))
          (foldl (zip_with Qplus) r rest)
  end.

Definition lloyd_step (X centres : list (list Q)) : list (list Q) :=
  imap (fun i c =>
          match List.filter (fun x => Nat.eqb (nearest centres x) i) X with
          | [] => c
          | members => rows_mean members
          end) centres.

Fixpoint lloyd (max_iter : nat) (X centres : list (list Q)) : list (list Q) :=
  match max_iter with
  | O => centres
  | S n => lloyd n X (lloyd_step X centres)
  end.

Definition lloyd_KMeans (k : nat) (X : list (list Q)) : M nat (list (list Q)) :=
  fun g =>
    if Nat.ltb (length X) k then (Raise ValueError, g)
    else (Ok (lloyd 300 X (take k (rotate (g mod length X) X))), S g).

(** Two nodes with two centroids each: the aggregate holds the means of the
    two groups of centroids. *)
Example cluster_two_nodes :
  ClusterFedAvgAggregator.aggregate_weights lloyd_KMeans
    [[[0]; [1]]; [[10]; [11]]] 0%nat
  = (Ok [[1 / 2]; [21 / 2]], 1%nat).
Proof. vm_compute. reflexivity. Qed.

Section ClusterConsensus.

Context {point rng : Type}.
Variable KMeans_fit : nat -> list point -> M rng (list point).
Variable init : nat -> rng.

Lemma bind_mret_M {A} (m : M rng A) g : (a ← m; mret a) g = m g.
Proof.
  unfold mbind, M_bind, mret, M_ret. by destruct (m g) as [[a|e] g'].
Qed.

Lemma cluster_aggregate_unfold first (cps : list (list point)) g :
  ClusterFedAvgAggregator.aggregate_weights KMeans_fit (first :: cps) g
  = KMeans_fit (length first) (concat (first :: cps)) g.
Proof.
  unfold ClusterFedAvgAggregator.aggregate_weights.
  unfold mbind at 1 2. unfold M_bind at 1 2. cbn [pure_result
    ClusterFedAvgAggregator.np_concatenate getitem lookup list_lookup].
  apply bind_mret_M.
Qed.

Lemma elem_of_concat (c : point) (l : list (list point)) :
  c ∈ concat l <-> exists node, node ∈ l /\ c ∈ node.
Proof.
  induction l as [|x l IH]; simpl.
  - split; [by intros ?%elem_of_nil|by intros (? & ?%elem_of_nil & _)].
  - rewrite elem_of_app, IH. split.
    + intros [H|(node & Hn & Hc)]; [exists x; split; [left|done]|].
      exists node. split; [by right|done].
    + intros (node & Hn & Hc). apply elem_of_cons in Hn as [->|Hn]; [by left|].
      right. eauto.
Qed.

Lemma length_concat_sum (l : list (list point)) :
  length (concat l) = sum_list_with length l.
Proof.
  induction l as [|x l IH]; [done|].
  cbn [concat sum_list_with]. by rewrite length_app, IH.
Qed.

Lemma cluster_aggregate_empty g :
  ClusterFedAvgAggregator.aggregate_weights KMeans_fit [] g = (Raise ValueError, g).
Proof. reflexivity. Qed.

(** C6: on a non-empty list of centroid sets the aggregate is what the
    re-clustering returns on the concatenation of all nodes' centroid arrays,
    asked for as many clusters as the first node's set has centroids.  The
    concatenation holds exactly the centroids of the nodes, and at least as
    many points as clusters asked for. *)
Theorem cluster_consensus_reclusters_concatenation
    (clients_params : list (list point)) (g : rng) :
  clients_params ≠ [] ->
  exists first,
    head clients_params = Some first
    /\ ClusterFedAvgAggregator.aggregate_weights KMeans_fit clients_params g
       = KMeans_fit (length first) (concat clients_params) g
    /\ (forall c, c ∈ concat clients_params
                  <-> exists node, node ∈ clients_params /\ c ∈ node)
    /\ length (concat clients_params) = sum_list_with length clients_params
    /\ (length first <= length (concat clients_params))%nat.
Proof.
  intros Hne. destruct clients_params as [|first cps]; [done|].
  exists first. split; [done|]. split; [apply cluster_aggregate_unfold|].
  split; [|split].
  - intros c. apply elem_of_concat.
  - apply length_concat_sum.
  - simpl. rewrite length_app. lia.
Qed.

(** C7, as the code has it: the aggregator takes no seed.  The number of
    clusters and the array handed to the re-clustering come from the input
    alone; the call returns what the re-clustering returns from the state the
    global generator is in, and leaves the generator where the re-clustering
    left it.  So two calls on the same input agree exactly when the
    re-clustering agrees on the two generator states; the second of two
    consecutive calls starts from the state the first one left; and when the
    global generator is re-seeded with the same seed before each of two
    calls, both return the same centroids, those of the re-clustering started
    from the seeded state. *)
Theorem cluster_consensus_seed_is_ambient
    (seed : nat) (first : list point) (rest : list (list point)) (g : rng) :
  let clients_params := first :: rest in
  let fit := KMeans_fit (length first) (concat clients_params) in
  ClusterFedAvgAggregator.aggregate_weights KMeans_fit clients_params g = fit g
  /\ (forall g',
        ClusterFedAvgAggregator.aggregate_weights KMeans_fit clients_params g
        = ClusterFedAvgAggregator.aggregate_weights KMeans_fit clients_params g'
        <-> fit g = fit g')
  /\ ClusterFedAvgAggregator.aggregate_twice KMeans_fit clients_params g
     = match fit g with
       | (Ok W1, g1) =>
           match fit g1 with
           | (Ok W2, g2) => (Ok (W1, W2), g2)
           | (Raise e, g2) => (Raise e, g2)
           end
       | (Raise e, g1) => (Raise e, g1)
       end
  /\ ClusterFedAvgAggregator.aggregate_twice_reseeded KMeans_fit init seed
       clients_params g
     = match fit (init seed) with
       | (Ok W, g') => (Ok (W, W), g')
       | (Raise e, g') => (Raise e, g')
       end.
Proof.
  intros clients_params fit.
  assert (forall s,
            ClusterFedAvgAggregator.aggregate_weights KMeans_fit clients_params s
            = fit s) as Hcall by (intros s; apply cluster_aggregate_unfold).
  split; [apply Hcall|]. split; [intros g'; by rewrite !Hcall|]. split.
  - unfold ClusterFedAvgAggregator.aggregate_twice.
    unfold mbind at 1. unfold M_bind at 1. rewrite Hcall.
    destruct (fit g) as [[W1|e] g1]; [|done].
    unfold mbind at 1. unfold M_bind at 1. rewrite Hcall.
    by destruct (fit g1) as [[W2|e] g2].
  - unfold ClusterFedAvgAggregator.aggregate_twice_reseeded.
    unfold mbind at 1. unfold M_bind at 1.
    cbn [ClusterFedAvgAggregator.np_random_seed].
    unfold mbind at 1. unfold M_bind at 1. rewrite Hcall.
    destruct (fit (init seed)) as [[W|e] g1] eqn:Efit; [|done].
    unfold mbind at 1. unfold M_bind at 1.
    cbn [ClusterFedAvgAggregator.np_random_seed].
    unfold mbind at 1. unfold M_bind at 1. rewrite Hcall, Efit. done.
Qed.

End ClusterConsensus.

Lemma cluster_consensus_reclusters_concatenation_witness :
  exists first,
    head [[[0]; [1]]; [[10]; [11]]] = Some first
    /\ ClusterFedAvgAggregator.aggregate_weights lloyd_KMeans
         [[[0]; [1]]; [[10]; [11]]] 0%nat
       = lloyd_KMeans (length first) (concat [[[0]; [1]]; [[10]; [11]]]) 0%nat
    /\ (forall c, c ∈ concat [[[0]; [1]]; [[10]; [11]]]
                  <-> exists node, node ∈ [[[0]; [1]]; [[10]; [11]]] /\ c ∈ node)
    /\ length (concat [[[0]; [1]]; [[10]; [11]]])
       = sum_list_with length [[[0]; [1]]; [[10]; [11]]]
    /\ (length first <= length (concat [[[0]; [1]]; [[10]; [11]]]))%nat.
Proof.
  apply (cluster_consensus_reclusters_concatenation lloyd_KMeans
           [[[0]; [1]]; [[10]; [11]]] 0%nat).
  discriminate.
Defined.

(** C7 as stated fails: the aggregator has no seed argument, and two calls
    on the same input, one after the other, return different centroid arrays
    when the re-clustering starts from different points: the same two cluster
    means, in the other order. *)
Lemma cluster_consensus_differs_without_reseeding :
  exists W1 W2,
    ClusterFedAvgAggregator.aggregate_twice lloyd_KMeans
      [[[0]; [1]]; [[10]; [11]]] 2%nat
    = (Ok (W1, W2), 4%nat)
    /\ W1 = [[1 / 2]; [21 / 2]]
    /\ W2 = [[21 / 2]; [1 / 2]]
    /\ ~ params_eq W1 W2.
Proof.
  exists [[1 / 2]; [21 / 2]], [[21 / 2]; [1 / 2]].
  split; [vm_compute; reflexivity|]. split; [done|]. split; [done|].
  intros H. inversion H as [|? ? ? ? Hb _]; subst.
  inversion Hb as [|? ? ? ? Hq _]; subst. discriminate Hq.
Qed.

(** Re-seeded before each call, the two calls agree. *)
Example cluster_reseeded_twice :
  ClusterFedAvgAggregator.aggregate_twice_reseeded lloyd_KMeans id 3
    [[[0]; [1]]; [[10]; [11]]] 0%nat
  = (Ok ([[21 / 2]; [1 / 2]], [[21 / 2]; [1 / 2]]), 4%nat).
Proof. vm_compute. reflexivity. Qed.

(** ** Private data, nodes and the poisoning attack *)

(** Python floats are binary64 numbers. *)
Abbreviation float := PrimFloat.float.

(** [float(z)] for a Python integer: the nearest binary64 number. *)
Definition float_of_int (z : Z) : float :=
  FloatOps.SF2Prim
    (SpecFloat.binary_normalize FloatOps.prec FloatOps.emax z 0 false).

(** [int(x)] for a float: truncation towards zero; an infinity raises
    [OverflowError], a NaN raises [ValueError]. *)
Definition int (x : float) : result Z :=
  match FloatOps.Prim2SF x with
  | SpecFloat.S754_zero _ => Ok 0%Z
  | SpecFloat.S754_finite negative m e =>
      let magnitude :=
        if Z.leb 0 e then (Z.pos m * 2 ^ e)%Z else Z.shiftr (Z.pos m) (- e) in
      Ok (if negative then (- magnitude)%Z else magnitude)
  | SpecFloat.S754_infinity _ => Raise OverflowError
  | SpecFloat.S754_nan => Raise ValueError
  end.

(** A [for] loop over a list, its body run for effect. *)
Fixpoint for_each {S A} (body : A -> M S unit) (xs : list A) : M S unit :=
  match xs with
  | [] => mret tt
  | x :: xs' => _ ← body x; for_each body xs'
  end.

Module Private.

(** How the elements of a label array are read.  [x[j]] on a Python list or
    on a one-dimensional numpy array yields the element itself; on a numpy
    array of two dimensions (one-hot labels) it yields a view of row [j],
    which shows whatever is written to that row afterwards. *)
Class LabelArray (Label : Type) := rows_are_views : bool.

(** Lists and one-dimensional arrays; the reading taken when nothing else
    is said. *)
#[global] Instance elements_by_value {Label} : LabelArray Label | 100 := false.

(** A numpy array of two dimensions, its rows the elements. *)
Definition rows_by_view {Label} : LabelArray Label := true.

Section Federation.

(** The feature array of a node and the type of one label. *)
Context {Features Label : Type}.

(** How the label arrays of the nodes are read. *)
Context {label_array : LabelArray Label}.

(** The state of the global generator of Python's [random] module. *)
Context {rng : Type}.

(** [random._randbelow(n)]: a draw below [n] from the global generator. *)
Variable randbelow : nat -> rng -> nat * rng.

(** [random.sample(population, k)] for [0 <= k <= len(population)]: a draw
    of [k] positions of the population, without replacement. *)
Variable random_sample : list nat -> nat -> rng -> list nat * rng.

Record LabeledData := { data : Features; label : list Label }.

(** Objects live in a store and are held by reference; the store and the
    generator make up the ambient state. *)
Abbreviation loc := nat.
Record world := { heap : gmap nat LabeledData; random_state : rng }.

Definition draw_below (n : nat) : M rng nat :=
  fun g => let (j, g') := randbelow n g in (Ok j, g').

(** [x[i], x[j] = x[j], x[i]] on elements read by value: the right-hand
    side is read first, [x[j]] before [x[i]], then [x[i]] and [x[j]] are
    assigned in this order. *)
Definition swap {A} (x : list A) (i j : nat) : result (list A) :=
  xj ← getitem x j;
  xi ← getitem x i;
  Ok (<[j := xi]> (<[i := xj]> x)).

(** The same statement on rows read as views: the views [x[j]] and [x[i]]
    are taken; [x[i] = x[j]] copies row [j] onto row [i]; the view [x[i]]
    now shows that copy, which [x[j] = x[i]] writes back to row [j]. *)
Definition copy_rows {A} (x : list A) (i j : nat) : result (list A) :=
  xj ← getitem x j;
  _ ← getitem x i;
  let x1 := <[i := xj]> x in
  xi ← getitem x1 i;
  Ok (<[j := xi]> x1).

(** [x[i], x[j] = x[j], x[i]] as the label array reads its elements. *)
Definition exchange {A} `{LabelArray A} (x : list A) (i j : nat) : result (list A) :=
  if rows_are_views then copy_rows x i j else swap x i j.

(** The loop of [random.shuffle]:
    [for i in reversed(range(1, len(x))): j = randbelow(i + 1); exchange]. *)
Fixpoint shuffle_loop {A} `{LabelArray A} (indices : list nat) (x : list A)
  : M rng (list A) :=
  match indices with
  | [] => mret x
  | i :: indices' =>
      j ← draw_below (i + 1);
      x' ← pure_result (exchange x i j);
      shuffle_loop indices' x'
  end.

(** [random.shuffle(x)], from the list before the call to the list after. *)
Definition random_shuffle {A} `{LabelArray A} (x : list A) : M rng (list A) :=
  shuffle_loop (reverse (seq 1 (length x - 1))) x.

(** The interface [FederatedTransformation]: [apply(self, labeled_data)]
    mutates the object it is handed; it is embedded as the function from the
    contents of the object before the call to its contents after. *)
Class FederatedTransformation (T : Type) := apply : T -> LabeledData -> M rng LabeledData.

Inductive ShuffleNode := MkShuffleNode.

#[global] Instance ShuffleNode_transformation : FederatedTransformation ShuffleNode :=
  fun self labeled_data =>
    shuffled ← random_shuffle (label labeled_data);
    mret {| data := data labeled_data; label := shuffled |}.

(** Modelled from the spec: the access gate of a node ([DataAccessGate] with
    its [PrivacyFilter]), which the notebooks only configure and call.  A
    filter lets a value through, possibly transformed, or denies it; the
    unprotected filter passes values through unchanged. *)
Inductive access := Allowed (value : LabeledData) | Denied.
Definition PrivacyFilter := LabeledData -> access.
Definition UnprotectedAccess : PrivacyFilter := Allowed.

(** Modelled from the spec: [DataNode], absent from the notebooks.  A node
    owns one [LabeledData] object and one access gate. *)
Record DataNode := { private_data : loc; access_policy : PrivacyFilter }.

(** Modelled from the spec: [DataNode.apply_data_transformation] calls
    [t.apply(privateData)], which mutates the node's data in place.  The
    object keeps its place in the store.  The spec does not say what a
    failed transformation leaves behind; here the object is kept as it
    was. *)
Definition apply_data_transformation {T} `{FederatedTransformation T}
    (node : DataNode) (t : T) : M world unit :=
  fun w =>
    match heap w !! private_data node with
    | None => (Raise AttributeError, w)
    | Some labeled_data =>
        match apply t labeled_data (random_state w) with
        | (Ok labeled_data', g') =>
            (Ok tt, {| heap := <[private_data node := labeled_data']> (heap w);
                       random_state := g' |})
        | (Raise e, g') =>
            (Raise e, {| heap := heap w; random_state := g' |})
        end
    end.

(** Modelled from the spec: [DataNode.query] delegates to the access gate,
    which decides on the node's current data. *)
Definition query (node : DataNode) : M world access :=
  fun w =>
    match heap w !! private_data node with
    | None => (Raise AttributeError, w)
    | Some labeled_data => (Ok (access_policy node labeled_data), w)
    end.

(** Modelled from the spec: [configure_data_access] replaces the filter. *)
Definition configure_data_access (node : DataNode) (filter : PrivacyFilter) : DataNode :=
  {| private_data := private_data node; access_policy := filter |}.

(** [random.sample] with its argument check. *)
Definition sample (population : list nat) (k : Z) : M rng (list nat) :=
  fun g =>
    if (Z.ltb k 0 || Z.ltb (Z.of_nat (length population)) k)%bool
    then (Raise ValueError, g)
    else let (chosen, g') := random_sample population (Z.to_nat k) g in
         (Ok chosen, g').

(** A computation on the generator, run inside the ambient state. *)
Definition with_generator {A} (m : M rng A) : M world A :=
  fun w =>
    let (r, g') := m (random_state w) in
    (r, {| heap := heap w; random_state := g' |}).

(** [_percentage] is a float; an integer percentage stands for the float
    of the same value. *)
Record FederatedPoisoningDataAttack :=
  { _percentage : float; _adversaries : list nat }.

Definition adversaries (self : FederatedPoisoningDataAttack) : list nat :=
  _adversaries self.

(** [1 if x in adversaries else 0 for x in list_nodes]. *)
Definition boolean_of (adversaries : list nat) (x : nat) : nat :=
  if decide (x ∈ adversaries) then 1%nat else 0%nat.

(** [int(self._percentage / 100 * num_nodes)], in binary64. *)
Definition adversary_count (percentage : float) (num_nodes : nat) : result Z :=
  int (PrimFloat.mul (PrimFloat.div percentage (float_of_int 100))
                     (float_of_int (Z.of_nat num_nodes))).

(** [apply_attack] assigns [self._adversaries]; the attack object after the
    call is returned.  [int] and [random.sample] raise before the
    assignment. *)
Definition apply_attack (self : FederatedPoisoningDataAttack)
    (federated_data : list DataNode) : M world FederatedPoisoningDataAttack :=
  let num_nodes := length federated_data in
  let list_nodes := seq 0 num_nodes in
  k ← pure_result (adversary_count (_percentage self) num_nodes);
  chosen ← with_generator (sample list_nodes k);
  let self' := {| _percentage := _percentage self; _adversaries := chosen |} in
  let boolean_adversaries := map (boolean_of (_adversaries self')) list_nodes in
  _ ← for_each
        (fun '(node, boolean) =>
           if Nat.eqb boolean 0 then mret tt
           else apply_data_transformation node MkShuffleNode)
        (zip federated_data boolean_adversaries);
  mret self'.

End Federation.
End Private.

(** ** The shuffle *)

Section Shuffle.

Context {rng : Type}.
Variable randbelow : nat -> rng -> nat * rng.

(** The contract of [random._randbelow]: the draw is below its bound. *)
Hypothesis randbelow_lt : forall n g, (0 < n)%nat -> ((randbelow n g).1 < n)%nat.

Lemma swap_Permutation {A} (x : list A) i j :
  (i < length x)%nat -> (j < length x)%nat ->
  exists x', Private.swap x i j = Ok x' /\ x' ≡ₚ x.
Proof.
  intros Hi Hj. unfold Private.swap, getitem.
  destruct (lookup_lt_is_Some_2 x i Hi) as [xi Exi].
  destruct (lookup_lt_is_Some_2 x j Hj) as [xj Exj].
  rewrite Exi, Exj. simpl. eexists. split; [done|].
  by apply Permutation_insert_swap.
Qed.

Lemma elem_of_insert_sub {A} (x : list A) i (a b : A) :
  b ∈ x -> a ∈ <[i := b]> x -> a ∈ x.
Proof.
  intros Hb Ha. apply list_elem_of_lookup in Ha as [k Hk].
  destruct (decide (k = i)) as [->|Hne].
  - destruct (decide (i < length x)%nat) as [Hi|Hi].
    + rewrite list_lookup_insert_eq in Hk by done. by simplify_eq.
    + rewrite list_insert_ge in Hk by lia. apply list_elem_of_lookup. eauto.
  - rewrite list_lookup_insert_ne in Hk by done. apply list_elem_of_lookup. eauto.
Qed.

Lemma copy_rows_spec {A} (x : list A) i j :
  (i < length x)%nat -> (j < length x)%nat ->
  exists x', Private.copy_rows x i j = Ok x'
             /\ length x' = length x /\ (forall a, a ∈ x' -> a ∈ x).
Proof.
  intros Hi Hj. unfold Private.copy_rows, getitem.
  destruct (lookup_lt_is_Some_2 x i Hi) as [xi Exi].
  destruct (lookup_lt_is_Some_2 x j Hj) as [xj Exj].
  rewrite Exi, Exj. cbn [mbind result_bind].
  rewrite list_lookup_insert_eq by done. cbn [mbind result_bind].
  eexists. split; [done|]. split; [by rewrite !length_insert|].
  assert (xj ∈ x) as Hxj by (apply list_elem_of_lookup; eauto).
  intros a Ha. apply elem_of_insert_sub in Ha.
  - by apply elem_of_insert_sub in Ha.
  - apply list_elem_of_lookup. exists i. by apply list_lookup_insert_eq.
Qed.

Lemma exchange_spec {A} {H : Private.LabelArray A} (x : list A) i j :
  (i < length x)%nat -> (j < length x)%nat ->
  exists x', Private.exchange x i j = Ok x'
             /\ length x' = length x
             /\ (forall a, a ∈ x' -> a ∈ x)
             /\ (Private.rows_are_views (Label := A) = false -> x' ≡ₚ x).
Proof.
  intros Hi Hj. unfold Private.exchange.
  destruct (Private.rows_are_views (Label := A)) eqn:E.
  - destruct (copy_rows_spec x i j Hi Hj) as (x' & -> & Hlen & Hsub).
    exists x'. by repeat split.
  - destruct (swap_Permutation x i j Hi Hj) as (x' & -> & Hperm).
    exists x'. split; [done|]. split; [by rewrite Hperm|].
    split; [|done]. intros a Ha. by rewrite <- Hperm.
Qed.

Lemma shuffle_loop_spec {A} {H : Private.LabelArray A} (indices : list nat) :
  forall (x : list A) g,
  Forall (fun i => (i < length x)%nat) indices ->
  exists x' g',
    Private.shuffle_loop randbelow indices x g = (Ok x', g')
    /\ length x' = length x
    /\ (forall a, a ∈ x' -> a ∈ x)
    /\ (Private.rows_are_views (Label := A) = false -> x' ≡ₚ x).
Proof.
  induction indices as [|i indices IH]; intros x g Hall.
  - exists x, g. by repeat split.
  - inversion_clear Hall as [|? ? Hi Hrest].
    cbn [Private.shuffle_loop]. unfold mbind at 1, M_bind at 1.
    unfold Private.draw_below.
    pose proof (randbelow_lt (i + 1) g ltac:(lia)) as Hj.
    destruct (randbelow (i + 1) g) as [j g1]. simpl in Hj.
    destruct (exchange_spec x i j) as (x1 & Eswap & Hlen & Hsub & Hperm); [lia..|].
    unfold mbind, M_bind, pure_result. rewrite Eswap.
    destruct (IH x1 g1) as (x' & g' & Eloop & Hlen' & Hsub' & Hperm').
    { by rewrite Hlen. }
    exists x', g'. split; [done|]. split; [by rewrite Hlen'|].
    split; [by auto|]. intros Hv. by rewrite Hperm', Hperm.
Qed.

Lemma random_shuffle_spec {A} {H : Private.LabelArray A} (x : list A) g :
  exists x' g',
    Private.random_shuffle randbelow x g = (Ok x', g')
    /\ length x' = length x
    /\ (forall a, a ∈ x' -> a ∈ x)
    /\ (Private.rows_are_views (Label := A) = false -> x' ≡ₚ x).
Proof.
  apply shuffle_loop_spec. apply Forall_forall. intros i Hi.
  apply elem_of_reverse, elem_of_seq in Hi. lia.
Qed.

Lemma ShuffleNode_apply_general {Features Label : Type}
    {H : Private.LabelArray Label}
    (labeled_data : Private.LabeledData (Features := Features) (Label := Label))
    (g : rng) :
  exists shuffled g',
    Private.apply (FederatedTransformation := Private.ShuffleNode_transformation randbelow)
      Private.MkShuffleNode labeled_data g = (Ok shuffled, g')
    /\ Private.data shuffled = Private.data labeled_data
    /\ length (Private.label shuffled) = length (Private.label labeled_data)
    /\ (forall a, a ∈ Private.label shuffled -> a ∈ Private.label labeled_data)
    /\ (Private.rows_are_views (Label := Label) = false ->
          Private.label shuffled ≡ₚ Private.label labeled_data).
Proof.
  destruct (random_shuffle_spec (Private.label labeled_data) g)
    as (x' & g' & E & Hlen & Hsub & Hperm).
  exists {| Private.data := Private.data labeled_data; Private.label := x' |}, g'.
  split; [|by repeat split].
  unfold Private.apply, Private.ShuffleNode_transformation.
  unfold mbind, M_bind. by rewrite E.
Qed.

Lemma ShuffleNode_apply_spec {Features Label : Type}
    (labeled_data : Private.LabeledData (Features := Features) (Label := Label))
    (g : rng) :
  exists shuffled g',
    Private.apply (FederatedTransformation := Private.ShuffleNode_transformation randbelow)
      Private.MkShuffleNode labeled_data g = (Ok shuffled, g')
    /\ Private.label shuffled ≡ₚ Private.label labeled_data
    /\ Private.data shuffled = Private.data labeled_data.
Proof.
  destruct (ShuffleNode_apply_general (H := Private.elements_by_value) labeled_data g)
    as (shuffled & g' & E & Hdata & _ & _ & Hperm).
  exists shuffled, g'. split; [done|]. split; [by apply Hperm|done].
Qed.

End Shuffle.

(** A sample generator, to run the attack on examples: a linear
    congruential generator; a draw below [n] is the state modulo [n], a
    sample of [k] positions is a run of [k] positions starting at a drawn
    one. *)
Definition lcg_next (g : nat) : nat := ((5 * g + 3) mod 16)%nat.

Definition lcg_randbelow (n : nat) (g : nat) : nat * nat :=
  ((g mod n)%nat, lcg_next g).

Definition lcg_sample (population : list nat) (k : nat) (g : nat) : list nat * nat :=
  (take k (rotate g population), lcg_next g).

Lemma lcg_randbelow_lt n g : (0 < n)%nat -> ((lcg_randbelow n g).1 < n)%nat.
Proof. intros Hn. simpl. apply Nat.mod_upper_bound. lia. Qed.

Lemma rotate_Permutation {A} (l : list A) n : rotate n l ≡ₚ l.
Proof.
  unfold rotate. rewrite Permutation_app_comm. by rewrite take_drop.
Qed.

Lemma lcg_sample_spec population k g :
  (k <= length population)%nat ->
  (lcg_sample population k g).1 ⊆+ population
  /\ length (lcg_sample population k g).1 = k.
Proof.
  intros Hk. simpl. split.
  - rewrite <- (rotate_Permutation population g) at 2.
    apply sublist_submseteq, sublist_take.
  - rewrite length_take, length_rotate. lia.
Qed.

(** X24: on labels read by value (a Python list, a one-dimensional array)
    [ShuffleNode.apply] returns, leaves the feature data as it was and
    replaces the labels by a permutation of them (the multiset of labels is
    preserved), provided the draws of the generator are below their
    bounds. *)
Theorem shuffle_node_permutes_labels {Features Label rng : Type}
    (randbelow : nat -> rng -> nat * rng)
    (labeled_data : Private.LabeledData (Features := Features) (Label := Label))
    (g : rng) :
  (forall n g, (0 < n)%nat -> ((randbelow n g).1 < n)%nat) ->
  exists shuffled g',
    Private.apply (FederatedTransformation := Private.ShuffleNode_transformation randbelow)
      Private.MkShuffleNode labeled_data g = (Ok shuffled, g')
    /\ Private.label shuffled ≡ₚ Private.label labeled_data
    /\ Private.data shuffled = Private.data labeled_data.
Proof.
  intros Hlt. by apply ShuffleNode_apply_spec.
Qed.

Example shuffle_node_run :
  Private.apply (FederatedTransformation := Private.ShuffleNode_transformation lcg_randbelow)
    Private.MkShuffleNode {| Private.data := [1; 2]; Private.label := [7; 8; 9]%nat |} 1%nat
  = (Ok {| Private.data := [1; 2]; Private.label := [9; 7; 8]%nat |}, 11%nat).
Proof. reflexivity. Qed.

Lemma shuffle_node_permutes_labels_witness :
  exists shuffled g',
    Private.apply (FederatedTransformation := Private.ShuffleNode_transformation lcg_randbelow)
      Private.MkShuffleNode {| Private.data := [1; 2]; Private.label := [7; 8; 9]%nat |} 1%nat
    = (Ok shuffled, g')
    /\ Private.label shuffled ≡ₚ [7; 8; 9]%nat
    /\ Private.data shuffled = [1; 2].
Proof.
  apply (shuffle_node_permutes_labels lcg_randbelow
           {| Private.data := [1; 2]; Private.label := [7; 8; 9]%nat |} 1%nat).
  apply lcg_randbelow_lt.
Defined.

(** C10: on one-hot labels, a numpy array of two dimensions, the label
    sequence after [ShuffleNode.apply] is not a permutation of the one
    before.  With the three labels of the identity matrix and the draws 1
    and 0, the exchange of rows 2 and 1 copies row 1 onto row 2, the exchange
    of rows 1 and 0 copies row 0 onto row 1: the label [0; 0; 1] is lost and
    [1; 0; 0] is held twice. *)
Theorem shuffle_node_duplicates_rows :
  let one_hot := [[1; 0; 0]; [0; 1; 0]; [0; 0; 1]] in
  exists shuffled,
    Private.apply
      (FederatedTransformation :=
         Private.ShuffleNode_transformation (label_array := Private.rows_by_view)
           lcg_randbelow)
      Private.MkShuffleNode
      {| Private.data := [1; 2; 3]; Private.label := one_hot |} 1%nat
    = (Ok {| Private.data := [1; 2; 3]; Private.label := shuffled |}, 11%nat)
    /\ shuffled = [[1; 0; 0]; [1; 0; 0]; [0; 1; 0]]
    /\ ~ shuffled ≡ₚ one_hot.
Proof.
  cbv zeta. eexists. split; [reflexivity|]. split; [reflexivity|].
  intros Hperm.
  assert ([0; 0; 1] ∈ [[1; 0; 0]; [1; 0; 0]; [0; 1; 0]]) as Hin.
  { rewrite Hperm. do 2 right. left. }
  repeat (apply elem_of_cons in Hin as [Hin|Hin]; [discriminate Hin|]).
  by apply elem_of_nil in Hin.
Qed.

(** ** Transformations applied to a node *)

Section NodeTransformation.

Context {Features Label rng : Type}.
Context {T : Type} `{!Private.FederatedTransformation (Features := Features)
                       (Label := Label) (rng := rng) T}.

Lemma apply_data_transformation_ok (node : Private.DataNode) (t : T)
    (w : Private.world) labeled_data labeled_data' g' :
  Private.heap w !! Private.private_data node = Some labeled_data ->
  Private.apply t labeled_data (Private.random_state w) = (Ok labeled_data', g') ->
  Private.apply_data_transformation node t w
  = (Ok tt, {| Private.heap := <[Private.private_data node := labeled_data']> (Private.heap w);
               Private.random_state := g' |}).
Proof.
  intros Hd Ht. unfold Private.apply_data_transformation. by rewrite Hd, Ht.
Qed.

Lemma apply_data_transformation_raise (node : Private.DataNode) (t : T)
    (w : Private.world) labeled_data e g' :
  Private.heap w !! Private.private_data node = Some labeled_data ->
  Private.apply t labeled_data (Private.random_state w) = (Raise e, g') ->
  Private.apply_data_transformation node t w
  = (Raise e, {| Private.heap := Private.heap w; Private.random_state := g' |}).
Proof.
  intros Hd Ht. unfold Private.apply_data_transformation. by rewrite Hd, Ht.
Qed.

(** C8: a transformation applied to a node runs [t.apply] on the node's own
    labeled data and the result takes the place of that data in the store:
    the node holds the transformed data at the same place, every other
    object is as before, and a query made afterwards is decided on the
    transformed data (it returns them under unprotected access). *)
Theorem transformation_mutates_node_data (node : Private.DataNode) (t : T)
    (w : Private.world) labeled_data labeled_data' g' :
  Private.heap w !! Private.private_data node = Some labeled_data ->
  Private.apply t labeled_data (Private.random_state w) = (Ok labeled_data', g') ->
  exists w',
    Private.apply_data_transformation node t w = (Ok tt, w')
    /\ Private.heap w' !! Private.private_data node = Some labeled_data'
    /\ (forall l, l ≠ Private.private_data node ->
          Private.heap w' !! l = Private.heap w !! l)
    /\ Private.random_state w' = g'
    /\ Private.query node w' = (Ok (Private.access_policy node labeled_data'), w')
    /\ Private.query (Private.configure_data_access node Private.UnprotectedAccess) w'
       = (Ok (Private.Allowed labeled_data'), w').
Proof.
  intros Hd Ht. eexists. split; [by eapply apply_data_transformation_ok|].
  cbn [Private.heap Private.random_state].
  split; [apply lookup_insert_eq|].
  split; [intros l Hl; by apply lookup_insert_ne|].
  split; [done|].
  unfold Private.query, Private.configure_data_access.
  cbn [Private.heap Private.private_data Private.access_policy].
  by rewrite lookup_insert_eq.
Qed.

End NodeTransformation.

Lemma transformation_mutates_node_data_witness :
  let node := {| Private.private_data := 0%nat;
                 Private.access_policy := Private.UnprotectedAccess |} in
  let before := {| Private.data := [1; 2]; Private.label := [7; 8; 9]%nat |} in
  let after := {| Private.data := [1; 2]; Private.label := [9; 7; 8]%nat |} in
  let w := {| Private.heap := {[ 0%nat := before ]}; Private.random_state := 1%nat |} in
  exists w',
    Private.apply_data_transformation
      (H := Private.ShuffleNode_transformation lcg_randbelow)
      node Private.MkShuffleNode w = (Ok tt, w')
    /\ Private.heap w' !! Private.private_data node = Some after
    /\ (forall l, l ≠ Private.private_data node ->
          Private.heap w' !! l = Private.heap w !! l)
    /\ Private.random_state w' = 11%nat
    /\ Private.query node w' = (Ok (Private.access_policy node after), w')
    /\ Private.query (Private.configure_data_access node Private.UnprotectedAccess) w'
       = (Ok (Private.Allowed after), w').
Proof.
  cbv zeta.
  apply (transformation_mutates_node_data
           (H := Private.ShuffleNode_transformation lcg_randbelow)
           _ Private.MkShuffleNode _
           {| Private.data := [1; 2]; Private.label := [7; 8; 9]%nat |}).
  - apply lookup_singleton_eq.
  - reflexivity.
Defined.

(** ** The poisoning attack *)

Section Attack.

Context {Features Label rng : Type}.
Context {label_array : Private.LabelArray Label}.
Variable randbelow : nat -> rng -> nat * rng.
Variable random_sample : list nat -> nat -> rng -> list nat * rng.

Hypothesis randbelow_lt : forall n g, (0 < n)%nat -> ((randbelow n g).1 < n)%nat.

(** The contract of [random.sample]: [k] positions of the population, none
    taken twice. *)
Hypothesis random_sample_spec : forall population k g,
  (k <= length population)%nat ->
  (random_sample population k g).1 ⊆+ population
  /\ length (random_sample population k g).1 = k.

Abbreviation LabeledData := (Private.LabeledData (Features := Features) (Label := Label)).
Abbreviation DataNode := (Private.DataNode (Features := Features) (Label := Label)).
Abbreviation world := (Private.world (Features := Features) (Label := Label) (rng := rng)).

Abbreviation shuffle_node :=
  (Private.ShuffleNode_transformation (label_array := label_array) randbelow).

(** [after] is what [ShuffleNode.apply] makes of [before] at some state of
    the generator. *)
Definition shuffled_from (before after : LabeledData) : Prop :=
  exists g g',
    Private.apply (FederatedTransformation := shuffle_node)
      Private.MkShuffleNode before g = (Ok after, g').

(** The body of the loop of [apply_attack]. *)
Definition poison (pair : DataNode * nat) : M world unit :=
  let '(node, boolean) := pair in
  if Nat.eqb boolean 0 then mret tt
  else Private.apply_data_transformation (H := shuffle_node) node Private.MkShuffleNode.

Lemma poison_loop (pairs : list (DataNode * nat)) : forall w : world,
  NoDup (map (fun pair => Private.private_data pair.1) pairs) ->
  Forall (fun pair => is_Some (Private.heap w !! Private.private_data pair.1)) pairs ->
  exists w',
    for_each poison pairs w = (Ok tt, w')
    /\ (forall l,
          (forall node b, (node, b) ∈ pairs -> Private.private_data node = l -> b = 0%nat) ->
          Private.heap w' !! l = Private.heap w !! l)
    /\ (forall node b before,
          (node, b) ∈ pairs -> b ≠ 0%nat ->
          Private.heap w !! Private.private_data node = Some before ->
          exists after, Private.heap w' !! Private.private_data node = Some after
                        /\ shuffled_from before after).
Proof.
  induction pairs as [|[nd b] pairs IH]; intros w Hnd Halloc.
  { exists w. split; [done|]. split; [done|].
    intros node b' before Hin. by apply elem_of_nil in Hin. }
  cbn [map fst] in Hnd. apply NoDup_cons in Hnd as [Hfresh Hnd].
  inversion_clear Halloc as [|? ? [d0 Hd0] Halloc'].
  cbn [fst] in Hd0. cbn [for_each]. unfold mbind, M_bind. cbn [poison].
  destruct (Nat.eqb b 0) eqn:Eb.
  - apply Nat.eqb_eq in Eb as ->. cbv iota. unfold mret at 1, M_ret at 1.
    destruct (IH w Hnd Halloc') as (w' & Erun & Hframe & Hpoison).
    exists w'. split; [done|]. split.
    + intros l Hl. apply Hframe. intros node b Hin. apply Hl. by right.
    + intros node b before Hin Hb. apply elem_of_cons in Hin as [[= -> ->]|Hin]; [done|].
      by apply (Hpoison node b).
  - apply Nat.eqb_neq in Eb. cbv iota.
    destruct (ShuffleNode_apply_general randbelow randbelow_lt (H := label_array)
                d0 (Private.random_state w)) as (d0' & g1 & Eapply & _).
    rewrite (apply_data_transformation_ok (H := shuffle_node)
               nd Private.MkShuffleNode w d0 d0' g1 Hd0 Eapply).
    set (w1 := {| Private.heap := <[Private.private_data nd := d0']> (Private.heap w);
                  Private.random_state := g1 |}).
    destruct (IH w1 Hnd) as (w' & Erun & Hframe & Hpoison).
    { eapply Forall_impl; [exact Halloc'|]. intros pair [d Hd]. cbn [w1 Private.heap].
      rewrite lookup_insert. case_decide; eauto. }
    assert (Private.heap w' !! Private.private_data nd = Some d0') as Hnd'.
    { rewrite Hframe; [apply lookup_insert_eq|].
      intros node b' Hin Hloc. exfalso. apply Hfresh.
      apply list_elem_of_fmap. by exists (node, b'). }
    exists w'. split; [done|]. split.
    + intros l Hl. rewrite Hframe.
      * cbn [w1 Private.heap]. apply lookup_insert_ne. intros <-.
        by specialize (Hl nd b ltac:(left) eq_refl).
      * intros node b' Hin. apply Hl. by right.
    + intros node b' before Hin Hb Hbefore.
      apply elem_of_cons in Hin as [[= -> ->]|Hin].
      * exists d0'. split; [done|]. rewrite Hd0 in Hbefore. injection Hbefore as <-.
        by exists (Private.random_state w), g1.
      * apply (Hpoison node b' before Hin Hb). cbn [w1 Private.heap].
        rewrite lookup_insert_ne; [done|]. intros E. apply Hfresh.
        apply list_elem_of_fmap. exists (node, b'). by split.
Qed.

Lemma zip_booleans_lookup (federated_data : list DataNode) chosen i node :
  federated_data !! i = Some node ->
  (node, Private.boolean_of chosen i)
  ∈ zip federated_data (map (Private.boolean_of chosen) (seq 0 (length federated_data))).
Proof.
  intros Hi. apply list_elem_of_lookup. exists i.
  apply lookup_zip_with_Some. exists node, (Private.boolean_of chosen i).
  split; [done|]. split; [done|].
  rewrite list_lookup_fmap, lookup_seq_lt; [done|]. by eapply lookup_lt_Some.
Qed.

Lemma zip_booleans_elem (federated_data : list DataNode) chosen node b :
  (node, b)
  ∈ zip federated_data (map (Private.boolean_of chosen) (seq 0 (length federated_data))) ->
  exists i, federated_data !! i = Some node /\ b = Private.boolean_of chosen i.
Proof.
  intros Hin. apply list_elem_of_lookup in Hin as [i Hi].
  apply lookup_zip_with_Some in Hi as (node' & b' & [= -> ->] & Hnode & Hb).
  exists i. split; [done|].
  rewrite list_lookup_fmap in Hb.
  destruct (seq 0 (length federated_data) !! i) as [i'|] eqn:Ei; [|done].
  apply lookup_seq in Ei as [-> _]. by injection Hb.
Qed.

Lemma submseteq_seq_NoDup (chosen : list nat) n :
  chosen ⊆+ seq 0 n -> NoDup chosen /\ forall i, i ∈ chosen -> (i < n)%nat.
Proof.
  intros Hsub. split.
  - destruct (submseteq_Permutation _ _ Hsub) as [rest Hperm].
    pose proof (NoDup_seq 0 n) as Hnd. rewrite Hperm in Hnd.
    by apply NoDup_app in Hnd as [? _].
  - intros i Hi. pose proof (elem_of_submseteq _ _ _ Hi Hsub) as Hin.
    apply elem_of_seq in Hin. lia.
Qed.

Lemma apply_attack_count_raises (self : Private.FederatedPoisoningDataAttack)
    (federated_data : list DataNode) (w : world) e :
  Private.adversary_count (Private._percentage self) (length federated_data)
  = Raise e ->
  Private.apply_attack randbelow random_sample self federated_data w = (Raise e, w).
Proof.
  intros Hcount. unfold Private.apply_attack.
  unfold mbind at 1, M_bind at 1. unfold pure_result. by rewrite Hcount.
Qed.

Lemma apply_attack_raises (self : Private.FederatedPoisoningDataAttack)
    (federated_data : list DataNode) (w : world) k :
  Private.adversary_count (Private._percentage self) (length federated_data)
  = Ok k ->
  ~ (0 <= k <= Z.of_nat (length federated_data))%Z ->
  Private.apply_attack randbelow random_sample self federated_data w
  = (Raise ValueError, w).
Proof.
  intros Hcount Hk. unfold Private.apply_attack.
  unfold mbind at 1, M_bind at 1. unfold pure_result at 1. rewrite Hcount.
  unfold mbind at 1, M_bind at 1. unfold Private.with_generator, Private.sample.
  rewrite length_seq.
  assert ((Z.ltb k 0 || Z.ltb (Z.of_nat (length federated_data)) k)%bool = true) as ->.
  { apply orb_true_iff. rewrite !Z.ltb_lt. lia. }
  by destruct w.
Qed.

Lemma apply_attack_run (self : Private.FederatedPoisoningDataAttack)
    (federated_data : list DataNode) (w : world) k :
  let num_nodes := length federated_data in
  Private.adversary_count (Private._percentage self) num_nodes = Ok k ->
  NoDup (map Private.private_data federated_data) ->
  Forall (fun node => is_Some (Private.heap w !! Private.private_data node))
         federated_data ->
  (0 <= k <= Z.of_nat num_nodes)%Z ->
  exists chosen w',
    Private.apply_attack randbelow random_sample self federated_data w
    = (Ok {| Private._percentage := Private._percentage self;
             Private._adversaries := chosen |}, w')
    /\ chosen ⊆+ seq 0 num_nodes
    /\ length chosen = Z.to_nat k
    /\ (forall l,
          (forall i node, federated_data !! i = Some node ->
                          Private.private_data node = l -> i ∉ chosen) ->
          Private.heap w' !! l = Private.heap w !! l)
    /\ (forall i node before,
          federated_data !! i = Some node -> i ∈ chosen ->
          Private.heap w !! Private.private_data node = Some before ->
          exists after,
            Private.heap w' !! Private.private_data node = Some after
            /\ shuffled_from before after).
Proof.
  intros num_nodes Hcount Hnd Halloc Hk.
  unfold Private.apply_attack. fold num_nodes.
  unfold mbind at 1, M_bind at 1. unfold pure_result at 1. rewrite Hcount.
  unfold mbind at 1, M_bind at 1. unfold Private.with_generator, Private.sample.
  rewrite length_seq.
  assert ((Z.ltb k 0 || Z.ltb (Z.of_nat num_nodes) k)%bool = false) as ->.
  { apply orb_false_iff. split; apply Z.ltb_ge; lia. }
  destruct (random_sample_spec (seq 0 num_nodes) (Z.to_nat k) (Private.random_state w))
    as [Hsub Hlen]; [rewrite length_seq; lia|].
  destruct (random_sample (seq 0 num_nodes) (Z.to_nat k) (Private.random_state w))
    as [chosen g1]. cbn [fst] in Hsub, Hlen.
  set (w0 := {| Private.heap := Private.heap w; Private.random_state := g1 |}).
  cbn [Private._adversaries Private._percentage].
  set (pairs := zip federated_data (map (Private.boolean_of chosen) (seq 0 num_nodes))).
  destruct (poison_loop pairs w0) as (w' & Erun & Hframe & Hpoison).
  { unfold pairs. rewrite <- (map_map fst Private.private_data).
    change (map fst ?l) with (l.*1).
    rewrite fst_zip; [done|]. by rewrite length_map, length_seq. }
  { apply Forall_forall. intros [node b] Hin.
    apply zip_booleans_elem in Hin as (i & Hi & _).
    rewrite Forall_forall in Halloc. apply Halloc.
    apply list_elem_of_lookup. eauto. }
  unfold mbind, M_bind. change (for_each _ pairs w0) with (for_each poison pairs w0).
  rewrite Erun. unfold mret, M_ret.
  exists chosen, w'. split; [done|]. split; [done|]. split; [done|]. split.
  - intros l Hl. rewrite Hframe; [done|].
    intros node b Hin Hloc.
    apply zip_booleans_elem in Hin as (i & Hi & ->).
    unfold Private.boolean_of. rewrite decide_False; [done|]. by eapply Hl.
  - intros i node before Hi Hin Hbefore.
    apply (Hpoison node (Private.boolean_of chosen i)); [|..|done].
    + by apply zip_booleans_lookup.
    + unfold Private.boolean_of. by rewrite decide_True.
Qed.

(** C9: on a federation whose nodes each own their data (allocated, no
    object shared by two nodes), with [k = int(p / 100 * n)] as binary64
    arithmetic gives it: when [k] is between 0 and [n], [apply_attack]
    returns; the recorded adversaries are [k] distinct node positions; the
    data of a node at a recorded position are what [ShuffleNode.apply] makes
    of them; the data of every other node are unchanged.  For any other [k]
    [random.sample] raises, and when [int] raises so does the attack: no
    node is changed at all. *)
Theorem attack_poisons_only_adversaries
    (self : Private.FederatedPoisoningDataAttack)
    (federated_data : list DataNode) (w : world) :
  let num_nodes := length federated_data in
  let count := Private.adversary_count (Private._percentage self) num_nodes in
  NoDup (map Private.private_data federated_data) ->
  Forall (fun node => is_Some (Private.heap w !! Private.private_data node))
         federated_data ->
  (forall k, count = Ok k -> (0 <= k <= Z.of_nat num_nodes)%Z ->
   exists self' w',
     Private.apply_attack randbelow random_sample self federated_data w = (Ok self', w')
     /\ length (Private.adversaries self') = Z.to_nat k
     /\ NoDup (Private.adversaries self')
     /\ (forall i, i ∈ Private.adversaries self' -> (i < num_nodes)%nat)
     /\ forall i node before,
          federated_data !! i = Some node ->
          Private.heap w !! Private.private_data node = Some before ->
          (i ∈ Private.adversaries self' ->
             exists after,
               Private.heap w' !! Private.private_data node = Some after
               /\ shuffled_from before after)
          /\ (i ∉ Private.adversaries self' ->
                Private.heap w' !! Private.private_data node = Some before))
  /\ (forall k, count = Ok k -> ~ (0 <= k <= Z.of_nat num_nodes)%Z ->
       Private.apply_attack randbelow random_sample self federated_data w
       = (Raise ValueError, w))
  /\ (forall e, count = Raise e ->
       Private.apply_attack randbelow random_sample self federated_data w
       = (Raise e, w)).
Proof.
  intros num_nodes count Hnd Halloc.
  split; [|split; [intros k Hc Hk; by eapply apply_attack_raises
                  |intros e Hc; by apply apply_attack_count_raises]].
  intros k Hcount Hk.
  destruct (apply_attack_run self federated_data w k Hcount Hnd Halloc Hk)
    as (chosen & w' & Erun & Hsub & Hlen & Hframe & Hpoison).
  destruct (submseteq_seq_NoDup chosen num_nodes Hsub) as [Hchosen Hrange].
  eexists _, w'. split; [exact Erun|].
  unfold Private.adversaries. cbn [Private._adversaries].
  split; [done|]. split; [done|]. split; [done|].
  intros i node before Hi Hbefore. split.
  - intros Hin. by apply (Hpoison i node before).
  - intros Hout. rewrite Hframe; [done|].
    intros i' node' Hi' Hloc.
    assert (i' = i) as ->; [|done].
    eapply (NoDup_lookup (map Private.private_data federated_data)); [done|..].
    + by rewrite list_lookup_fmap, Hi'.
    + rewrite list_lookup_fmap, Hi. simpl. by rewrite Hloc.
Qed.

End Attack.

(** A federation of five nodes, each owning one object, and an attack on
    40% of them. *)
Definition five_nodes : list (Private.DataNode (Features := list Q) (Label := nat)) :=
  map (fun l => {| Private.private_data := l;
                   Private.access_policy := Private.UnprotectedAccess |})
      (seq 0 5).

Definition five_objects : gmap nat (Private.LabeledData (Features := list Q) (Label := nat)) :=
  list_to_map
    (map (fun l => (l, {| Private.data := [inject_Z (Z.of_nat l)];
                          Private.label := [l; l + 10; l + 20]%nat |}))
         (seq 0 5)).

Definition attack_40 : Private.FederatedPoisoningDataAttack :=
  {| Private._percentage := float_of_int 40; Private._adversaries := [] |}.

Example attack_run :
  let w := {| Private.heap := five_objects; Private.random_state := 1%nat |} in
  exists self' w',
    Private.apply_attack lcg_randbelow lcg_sample attack_40 five_nodes w = (Ok self', w')
    /\ Private.adversaries self' = [1; 2]%nat
    /\ map (fun l => Private.label <$> Private.heap w' !! l) (seq 0 5)
       = [Some [0; 10; 20]; Some [1; 11; 21]; Some [2; 22; 12];
          Some [3; 13; 23]; Some [4; 14; 24]]%nat.
Proof.
  cbv zeta.
  destruct (Private.apply_attack lcg_randbelow lcg_sample attack_40 five_nodes
              {| Private.heap := five_objects; Private.random_state := 1%nat |})
    as [[self'|e] w'] eqn:E; vm_compute in E; [|discriminate E].
  injection E as <- <-. eexists _, _. split; [reflexivity|]. split; reflexivity.
Qed.

(** More adversaries asked for than there are nodes: [random.sample] raises
    and nothing is changed. *)
Example attack_too_many :
  let w := {| Private.heap := five_objects; Private.random_state := 1%nat |} in
  Private.apply_attack lcg_randbelow lcg_sample
    {| Private._percentage := float_of_int 140; Private._adversaries := [] |}
    five_nodes w
  = (Raise ValueError, w).
Proof. vm_compute. reflexivity. Qed.

(** The count is the one binary64 arithmetic gives: 58% of 50 nodes are 28
    adversaries, [58 / 100 * 50] being just below 29. *)
Example adversary_count_58_of_50 :
  Private.adversary_count (float_of_int 58) 50 = Ok 28%Z
  /\ Private.adversary_count (float_of_int 20) 20 = Ok 4%Z.
Proof. split; vm_compute; reflexivity. Qed.

Lemma attack_poisons_only_adversaries_witness :
  let w := {| Private.heap := five_objects; Private.random_state := 1%nat |} in
  exists self' w',
    Private.apply_attack lcg_randbelow lcg_sample attack_40 five_nodes w = (Ok self', w')
    /\ length (Private.adversaries self') = 2%nat
    /\ NoDup (Private.adversaries self')
    /\ (forall i, i ∈ Private.adversaries self' -> (i < 5)%nat)
    /\ forall i node before,
         five_nodes !! i = Some node ->
         Private.heap w !! Private.private_data node = Some before ->
         (i ∈ Private.adversaries self' ->
            exists after,
              Private.heap w' !! Private.private_data node = Some after
              /\ shuffled_from lcg_randbelow before after)
         /\ (i ∉ Private.adversaries self' ->
               Private.heap w' !! Private.private_data node = Some before).
Proof.
  cbv zeta.
  apply (proj1 (attack_poisons_only_adversaries lcg_randbelow lcg_sample
                  lcg_randbelow_lt lcg_sample_spec attack_40 five_nodes
                  {| Private.heap := five_objects; Private.random_state := 1%nat |}
                  ltac:(compute_done)
                  ltac:(repeat constructor; eexists; vm_compute; reflexivity))
               2%Z).
  - vm_compute. reflexivity.
  - vm_compute. split; discriminate.
Defined.

(** The nodes of a federation must not share their data: when two nodes hold
    the same object, poisoning node 0 changes what node 1 holds, although
    node 1 is not recorded as an adversary. *)
Example attack_shared_object :
  let node := {| Private.private_data := 0%nat;
                 Private.access_policy := Private.UnprotectedAccess |} in
  let before := {| Private.data := [1]; Private.label := [7; 8; 9]%nat |} in
  let w := {| Private.heap := {[ 0%nat := before ]}; Private.random_state := 0%nat |} in
  exists self' w',
    Private.apply_attack lcg_randbelow lcg_sample
      {| Private._percentage := float_of_int 50; Private._adversaries := [] |}
      [node; node] w
    = (Ok self', w')
    /\ Private.adversaries self' = [0%nat]
    /\ Private.label <$> Private.heap w' !! 0%nat = Some [8; 9; 7]%nat.
Proof.
  cbv zeta.
  destruct (Private.apply_attack lcg_randbelow lcg_sample _ _ _)
    as [[self'|e] w'] eqn:E; vm_compute in E; [|discriminate E].
  injection E as <- <-. eexists _, _. split; [reflexivity|]. split; reflexivity.
Qed.

(** * Further properties *)

(** ** The averaging operators *)

Section MoreAveraging.

Lemma Qsum_replicate (x : Q) n :
  Qsum (replicate n x) == inject_Z (Z.of_nat n) * x.
Proof.
  induction n as [|n IH].
  - simpl. ring.
  - cbn [replicate]. rewrite Qsum_cons, IH.
    rewrite Nat2Z.inj_succ. unfold Z.succ. rewrite inject_Z_plus. ring.
Qed.

Lemma Qsum_scale c (f : list (list Q) -> Q) (cps : list params) :
  Qsum (map (fun p => c * f p) cps) == c * Qsum (map f cps).
Proof.
  induction cps as [|p cps IH].
  - simpl. ring.
  - cbn [map]. rewrite !Qsum_cons, IH. ring.
Qed.

Lemma Qsum_app l1 l2 : Qsum (l1 ++ l2) == Qsum l1 + Qsum l2.
Proof.
  induction l1 as [|x l1 IH].
  - simpl. ring.
  - cbn [app]. rewrite !Qsum_cons, IH. ring.
Qed.

Lemma Qsum_ext (f g : list (list Q) -> Q) (cps : list params) :
  (forall p, p ∈ cps -> f p == g p) ->
  Qsum (map f cps) == Qsum (map g cps).
Proof.
  induction cps as [|p cps IH]; intros H; [reflexivity|].
  cbn [map]. rewrite !Qsum_cons. rewrite (H p) by left.
  rewrite IH; [reflexivity|]. intros q Hq. apply H. by right.
Qed.

Lemma Qsum_lower lo (f : list (list Q) -> Q) (cps : list params) :
  (forall p, p ∈ cps -> lo <= f p) ->
  inject_Z (Z.of_nat (length cps)) * lo <= Qsum (map f cps).
Proof.
  induction cps as [|p cps IH]; intros H.
  - simpl. rewrite Qmult_0_l. apply Qle_refl.
  - cbn [map length]. rewrite Qsum_cons.
    rewrite Nat2Z.inj_succ. unfold Z.succ. rewrite inject_Z_plus.
    assert ((inject_Z (Z.of_nat (length cps)) + inject_Z 1) * lo
            == lo + inject_Z (Z.of_nat (length cps)) * lo) as -> by ring.
    apply Qplus_le_compat; [apply H; left|].
    apply IH. intros q Hq. apply H. by right.
Qed.

Lemma Qsum_upper hi (f : list (list Q) -> Q) (cps : list params) :
  (forall p, p ∈ cps -> f p <= hi) ->
  Qsum (map f cps) <= inject_Z (Z.of_nat (length cps)) * hi.
Proof.
  induction cps as [|p cps IH]; intros H.
  - simpl. rewrite Qmult_0_l. apply Qle_refl.
  - cbn [map length]. rewrite Qsum_cons.
    rewrite Nat2Z.inj_succ. unfold Z.succ. rewrite inject_Z_plus.
    assert ((inject_Z (Z.of_nat (length cps)) + inject_Z 1) * hi
            == hi + inject_Z (Z.of_nat (length cps)) * hi) as -> by ring.
    apply Qplus_le_compat; [apply H; left|].
    apply IH. intros q Hq. apply H. by right.
Qed.

Lemma inject_nat_pos n : (0 < n)%nat -> 0 < inject_Z (Z.of_nat n).
Proof. intros Hn. unfold Qlt. simpl. lia. Qed.

Lemma mean_entry_bounds lo hi (cps : list params) layer j :
  cps ≠ [] ->
  (forall p, p ∈ cps -> lo <= entry p layer j <= hi) ->
  lo <= mean_entry cps layer j <= hi.
Proof.
  intros Hne H. unfold mean_entry.
  assert (0 < inject_Z (Z.of_nat (length cps))) as Hn.
  { apply inject_nat_pos. destruct cps; [done|simpl; lia]. }
  set (n := inject_Z (Z.of_nat (length cps))) in *.
  set (S := Qsum (map (fun p => entry p layer j) cps)).
  assert (n * lo <= S) as Hlo by (apply Qsum_lower; intros p Hp; by apply H).
  assert (S <= n * hi) as Hhi by (apply Qsum_upper; intros p Hp; by apply H).
  assert (1 / n * S == S / n) as ->
    by (field; intros E; rewrite E in Hn; by apply Qlt_irrefl in Hn).
  split.
  - apply Qle_shift_div_l; [done|]. by rewrite Qmult_comm.
  - apply Qle_shift_div_r; [done|]. by rewrite Qmult_comm.
Qed.

End MoreAveraging.

(** X1: on the empty list of nodes, and on nodes that differ in their number of
    blocks, both averaging operators raise [IndexError], whatever the
    weights: the array built from such input has one dimension only. *)
Theorem averaging_needs_a_table (self : WeightedFedAvgAggregator.t)
    (clients_params : list params) :
  clients_params = [] \/ counts_differ clients_params ->
  FedAvgAggregator.aggregate_weights clients_params = Raise IndexError
  /\ WeightedFedAvgAggregator.aggregate_weights self clients_params = Raise IndexError.
Proof.
  intros [->|Hdiff]; [by split|].
  destruct clients_params as [|p ps].
  { destruct Hdiff as (q & _ & Hq & _). by apply elem_of_nil in Hq. }
  split; [by apply FedAvg_cases|].
  unfold WeightedFedAvgAggregator.aggregate_weights.
  destruct (np_shape_cases p ps) as [[_ Hlen]|[-> _]]; [|done].
  destruct Hdiff as (q1 & q2 & H1 & H2 & Hd). by rewrite (Hlen q1), (Hlen q2) in Hd.
Qed.

Lemma averaging_needs_a_table_witness :
  FedAvgAggregator.aggregate_weights [[[1; 2]; [3]]; [[4; 5]]] = Raise IndexError
  /\ WeightedFedAvgAggregator.aggregate_weights
       {| WeightedFedAvgAggregator._percentage := [1 / 2; 1 / 2] |}
       [[[1; 2]; [3]]; [[4; 5]]] = Raise IndexError.
Proof.
  apply averaging_needs_a_table. right.
  exists [[1; 2]; [3]], [[4; 5]]. split; [left|]. split; [right; left|].
  discriminate.
Defined.

(** X2: in exact arithmetic (the rounding of floating-point operations aside),
    nodes that all hold the same parameters aggregate to these parameters:
    Mean keeps a consensus, for any number of nodes (one node included). *)
Theorem fedavg_of_identical_nodes (p : params) (n : nat) :
  exists W,
    FedAvgAggregator.aggregate_weights (replicate (S n) p) = Ok W
    /\ params_eq W p.
Proof.
  assert (has_shape (dims p) (replicate (S n) p)) as Hs
    by (apply Forall_replicate; done).
  cbn [replicate] in *.
  exists (mean_blocks (dims p) p (replicate n p)).
  split; [by apply FedAvg_regular|].
  apply params_eq_pointwise; [by apply mean_blocks_dims|].
  intros layer j Hl. rewrite mean_blocks_length in Hl.
  rewrite mean_blocks_entry by done. unfold mean_entry.
  change (p :: replicate n p) with (replicate (S n) p).
  rewrite length_replicate, fmap_replicate, Qsum_replicate.
  field. apply inject_nat_nonzero. lia.
Qed.

(** X3: in exact arithmetic (the rounding of floating-point operations aside),
    every entry of the Mean aggregate lies between the smallest and the
    largest value the nodes hold at that entry. *)
Theorem fedavg_within_bounds (lo hi : Q) (clients_params : list params)
    (layer j : nat) :
  clients_params ≠ [] -> identical_shape clients_params ->
  (forall p, p ∈ clients_params -> lo <= entry p layer j <= hi) ->
  exists W,
    FedAvgAggregator.aggregate_weights clients_params = Ok W
    /\ ((layer < length W)%nat -> lo <= entry W layer j <= hi).
Proof.
  intros Hne Hid Hb. destruct clients_params as [|p cps]; [done|].
  pose proof (identical_has_shape _ _ Hid) as Hs.
  exists (mean_blocks (dims p) p cps). split; [by apply FedAvg_regular|].
  intros Hl. rewrite mean_blocks_length in Hl.
  rewrite mean_blocks_entry by done. by apply mean_entry_bounds.
Qed.

Lemma fedavg_within_bounds_witness :
  exists W,
    FedAvgAggregator.aggregate_weights [[[2; 4]; [1]]; [[4; 8]; [3]]] = Ok W
    /\ ((0 < length W)%nat -> 4 <= entry W 0 1 <= 8).
Proof.
  apply fedavg_within_bounds; [discriminate| |].
  - apply (has_shape_identical [2; 1]%nat). repeat constructor.
  - intros p Hp. repeat (apply elem_of_cons in Hp as [->|Hp]); [| |by apply elem_of_nil in Hp];
      split; discriminate.
Defined.

(** X4: in exact arithmetic (the rounding of floating-point operations aside),
    Mean is homogeneous: scaling the parameters of every node by [c] scales
    the aggregate by [c]. *)
Theorem fedavg_homogeneous (c : Q) (clients_params : list params) :
  clients_params ≠ [] -> identical_shape clients_params ->
  exists W Wc,
    FedAvgAggregator.aggregate_weights clients_params = Ok W
    /\ FedAvgAggregator.aggregate_weights (map (scale_row c) clients_params) = Ok Wc
    /\ params_eq Wc (scale_row c W).
Proof.
  intros Hne Hid. destruct clients_params as [|p cps]; [done|].
  pose proof (identical_has_shape _ _ Hid) as Hs.
  assert (has_shape (dims p) (map (scale_row c) (p :: cps))) as Hs'.
  { apply Forall_fmap. eapply Forall_impl; [exact Hs|].
    intros q Hq. simpl. by rewrite scale_row_dims. }
  cbn [map] in *.
  exists (mean_blocks (dims p) p cps),
         (mean_blocks (dims p) (scale_row c p) (map (scale_row c) cps)).
  split; [by apply FedAvg_regular|]. split; [by apply FedAvg_regular|].
  apply params_eq_pointwise.
  - rewrite scale_row_dims. by rewrite !mean_blocks_dims.
  - intros layer j Hl. rewrite mean_blocks_length in Hl.
    rewrite scale_row_entry, !mean_blocks_entry by done.
    unfold mean_entry. change (scale_row c p :: map (scale_row c) cps)
      with (map (scale_row c) (p :: cps)).
    rewrite length_map, map_map.
    rewrite (Qsum_ext _ (fun q => c * entry q layer j))
      by (intros q _; apply scale_row_entry).
    rewrite Qsum_scale. ring.
Qed.

Lemma fedavg_homogeneous_witness :
  exists W Wc,
    FedAvgAggregator.aggregate_weights [[[2; 4]; [1]]; [[4; 8]; [3]]] = Ok W
    /\ FedAvgAggregator.aggregate_weights
         (map (scale_row 3) [[[2; 4]; [1]]; [[4; 8]; [3]]]) = Ok Wc
    /\ params_eq Wc (scale_row 3 W).
Proof.
  apply fedavg_homogeneous; [discriminate|].
  apply (has_shape_identical [2; 1]%nat). repeat constructor.
Defined.

(** X5: in exact arithmetic (the rounding of floating-point operations aside),
    aggregation in two stages: the Mean aggregates of two groups of nodes,
    combined by WeightedMean with each group's share of the nodes as weight,
    give the Mean aggregate of all the nodes together. *)
Theorem fedavg_two_stage (A B : list params) :
  A ≠ [] -> B ≠ [] -> identical_shape (A ++ B) ->
  let share (G : list params) :=
    inject_Z (Z.of_nat (length G)) / inject_Z (Z.of_nat (length (A ++ B))) in
  exists WA WB W W2,
    FedAvgAggregator.aggregate_weights A = Ok WA
    /\ FedAvgAggregator.aggregate_weights B = Ok WB
    /\ FedAvgAggregator.aggregate_weights (A ++ B) = Ok W
    /\ WeightedFedAvgAggregator.aggregate_weights
         {| WeightedFedAvgAggregator._percentage := [share A; share B] |}
         [WA; WB] = Ok W2
    /\ params_eq W2 W.
Proof.
  intros HA HB Hid share.
  destruct A as [|a A']; [done|]. destruct B as [|b B']; [done|].
  set (s := dims a).
  assert (has_shape s ((a :: A') ++ b :: B')) as Hs
    by apply (identical_has_shape a (A' ++ b :: B') Hid).
  assert (has_shape s (a :: A') /\ has_shape s (b :: B')) as [HsA HsB].
  { by apply Forall_app in Hs. }
  assert (has_shape s [mean_blocks s a A'; mean_blocks s b B']) as Hs2.
  { repeat constructor; by apply mean_blocks_dims. }
  exists (mean_blocks s a A'), (mean_blocks s b B'),
         (mean_blocks s a (A' ++ b :: B')),
         (sum_rows s (scale_row (share (a :: A')) (mean_blocks s a A'))
            (zip_with scale_row [share (b :: B')] [mean_blocks s b B'])).
  split; [by apply FedAvg_regular|]. split; [by apply FedAvg_regular|].
  split; [by apply (FedAvg_regular s a (A' ++ b :: B'))|].
  split; [by apply Weighted_regular|].
  apply params_eq_pointwise.
  - rewrite (mean_blocks_dims s a (A' ++ b :: B')) by done.
    apply sum_rows_dims.
    apply (has_shape_scaled s [share (a :: A'); share (b :: B')] _ Hs2).
  - intros layer j Hl. rewrite sum_rows_length in Hl.
    rewrite weighted_regular_entry by done.
    rewrite (mean_blocks_entry s a (A' ++ b :: B')) by done.
    unfold weighted_entry. cbn [zip_with]. rewrite !Qsum_cons.
    rewrite !mean_blocks_entry by done.
    unfold mean_entry, share.
    change (a :: A' ++ b :: B') with ((a :: A') ++ b :: B').
    rewrite map_app, Qsum_app, length_app, Nat2Z.inj_add, inject_Z_plus.
    assert (~ inject_Z (Z.of_nat (length (a :: A'))) == 0) as HnA
      by (apply inject_nat_nonzero; simpl; lia).
    assert (~ inject_Z (Z.of_nat (length (b :: B'))) == 0) as HnB
      by (apply inject_nat_nonzero; simpl; lia).
    assert (~ inject_Z (Z.of_nat (length (a :: A')))
              + inject_Z (Z.of_nat (length (b :: B'))) == 0) as Hn.
    { rewrite <- inject_Z_plus, <- Nat2Z.inj_add. apply inject_nat_nonzero.
      simpl. lia. }
    simpl Qsum at 3. field. auto.
Qed.

Lemma fedavg_two_stage_witness :
  let A := [[[2; 4]; [1]]; [[4; 8]; [3]]] in
  let B := [[[0; 3]; [5]]] in
  exists WA WB W W2,
    FedAvgAggregator.aggregate_weights A = Ok WA
    /\ FedAvgAggregator.aggregate_weights B = Ok WB
    /\ FedAvgAggregator.aggregate_weights (A ++ B) = Ok W
    /\ WeightedFedAvgAggregator.aggregate_weights
         {| WeightedFedAvgAggregator._percentage :=
              [inject_Z (Z.of_nat (length A)) / inject_Z (Z.of_nat (length (A ++ B)));
               inject_Z (Z.of_nat (length B)) / inject_Z (Z.of_nat (length (A ++ B)))] |}
         [WA; WB] = Ok W2
    /\ params_eq W2 W.
Proof.
  cbv zeta.
  apply (fedavg_two_stage [[[2; 4]; [1]]; [[4; 8]; [3]]] [[[0; 3]; [5]]]);
    [discriminate|discriminate|].
  apply (has_shape_identical [2; 1]%nat). repeat constructor.
Defined.

Section MoreWeighted.

Lemma comprehension_first_raise {A B} (f : A -> result B) e l1 x l2 :
  (forall y, y ∈ l1 -> exists z, f y = Ok z) -> f x = Raise e ->
  comprehension f (l1 ++ x :: l2) = Raise e.
Proof.
  intros Hok Hx. induction l1 as [|y l1 IH]; simpl.
  - by rewrite Hx.
  - destruct (Hok y) as [z ->]; [left|]. simpl.
    rewrite IH; [done|]. intros y' Hy'. apply Hok. by right.
Qed.

Lemma np_shape_0 (cps : list params) : getitem (np_shape cps) 0 = Ok (length cps).
Proof.
  destruct cps as [|p ps]; [done|]. unfold np_shape.
  by destruct (forallb _ ps).
Qed.

Lemma weighted_sum_lower lo ws (f : list (list Q) -> Q) (cps : list params) :
  length ws = length cps ->
  Forall (fun w => 0 <= w) ws ->
  (forall p, p ∈ cps -> lo <= f p) ->
  Qsum ws * lo <= Qsum (zip_with (fun w p => w * f p) ws cps).
Proof.
  revert cps. induction ws as [|w ws IH]; intros [|p cps] Hlen Hpos Hlo;
    simplify_eq/=.
  - rewrite Qmult_0_l. apply Qle_refl.
  - inversion_clear Hpos as [|? ? Hw Hws]. fold (Qsum ws).
    fold (Qsum (zip_with (fun w p => w * f p) ws cps)).
    assert ((w + Qsum ws) * lo == w * lo + Qsum ws * lo) as -> by ring.
    apply Qplus_le_compat.
    + apply Qle_minus_iff.
      assert (w * f p + - (w * lo) == w * (f p + - lo)) as -> by ring.
      apply Qmult_le_0_compat; [done|]. apply -> Qle_minus_iff. apply Hlo. left.
    + apply IH; [done|done|]. intros q Hq. apply Hlo. by right.
Qed.

Lemma weighted_sum_upper hi ws (f : list (list Q) -> Q) (cps : list params) :
  length ws = length cps ->
  Forall (fun w => 0 <= w) ws ->
  (forall p, p ∈ cps -> f p <= hi) ->
  Qsum (zip_with (fun w p => w * f p) ws cps) <= Qsum ws * hi.
Proof.
  revert cps. induction ws as [|w ws IH]; intros [|p cps] Hlen Hpos Hhi;
    simplify_eq/=.
  - rewrite Qmult_0_l. apply Qle_refl.
  - inversion_clear Hpos as [|? ? Hw Hws]. fold (Qsum ws).
    fold (Qsum (zip_with (fun w p => w * f p) ws cps)).
    assert ((w + Qsum ws) * hi == w * hi + Qsum ws * hi) as -> by ring.
    apply Qplus_le_compat.
    + apply Qle_minus_iff.
      assert (w * hi + - (w * f p) == w * (hi + - f p)) as -> by ring.
      apply Qmult_le_0_compat; [done|]. apply -> Qle_minus_iff. apply Hhi. left.
    + apply IH; [done|done|]. intros q Hq. apply Hhi. by right.
Qed.

End MoreWeighted.

(** X6: with fewer weights than nodes WeightedMean raises [IndexError] and
    returns no aggregate, on any list of nodes. *)
Theorem weighted_too_few_weights (ws : list Q) (clients_params : list params) :
  (length ws < length clients_params)%nat ->
  WeightedFedAvgAggregator.aggregate_weights
    {| WeightedFedAvgAggregator._percentage := ws |} clients_params
  = Raise IndexError.
Proof.
  intros Hlen. destruct clients_params as [|p ps]; [simpl in Hlen; lia|].
  unfold WeightedFedAvgAggregator.aggregate_weights.
  destruct (np_shape_cases p ps) as [[-> _]|[-> _]]; [|done].
  cbn [getitem lookup list_lookup mbind result_bind
       WeightedFedAvgAggregator._percentage].
  cbn [length] in Hlen.
  replace (S (length ps)) with (length ws + S (length ps - length ws))%nat by lia.
  rewrite seq_app. cbn [seq].
  rewrite (comprehension_first_raise _ IndexError); [done| |].
  - intros i Hi. apply elem_of_seq in Hi.
    rewrite (getitem_nth ws i 0) by lia. simpl.
    rewrite (getitem_nth (p :: ps) i []) by (simpl; lia). simpl. eauto.
  - assert (getitem ws (0 + length ws) = Raise IndexError) as ->; [|done].
    unfold getitem. by rewrite lookup_ge_None_2.
Qed.

Lemma weighted_too_few_weights_witness :
  WeightedFedAvgAggregator.aggregate_weights
    {| WeightedFedAvgAggregator._percentage := [1 / 2] |}
    [[[2; 4]; [1]]; [[4; 8]; [3]]]
  = Raise IndexError.
Proof.
  apply (weighted_too_few_weights [1 / 2] [[[2; 4]; [1]]; [[4; 8]; [3]]]).
  simpl. lia.
Defined.

(** X7: weights past the number of nodes are never read: appending further
    weights changes nothing, on any list of nodes. *)
Theorem weighted_ignores_extra_weights (ws extra : list Q)
    (clients_params : list params) :
  (length clients_params <= length ws)%nat ->
  WeightedFedAvgAggregator.aggregate_weights
    {| WeightedFedAvgAggregator._percentage := ws ++ extra |} clients_params
  = WeightedFedAvgAggregator.aggregate_weights
      {| WeightedFedAvgAggregator._percentage := ws |} clients_params.
Proof.
  intros Hlen. unfold WeightedFedAvgAggregator.aggregate_weights.
  rewrite np_shape_0. cbn [mbind result_bind WeightedFedAvgAggregator._percentage].
  destruct (getitem (np_shape clients_params) 1) as [num_layers|e]; [|done].
  cbn [mbind result_bind].
  rewrite (comprehension_ext
             (fun client =>
                w ← getitem (ws ++ extra) client;
                row ← getitem clients_params client; Ok (scale_row w row))
             (fun client =>
                w ← getitem ws client;
                row ← getitem clients_params client; Ok (scale_row w row)));
    [done|].
  intros i Hi. apply elem_of_seq in Hi.
  assert (getitem (ws ++ extra) i = getitem ws i) as ->; [|done].
  unfold getitem. by rewrite lookup_app_l by lia.
Qed.

Lemma weighted_ignores_extra_weights_witness :
  WeightedFedAvgAggregator.aggregate_weights
    {| WeightedFedAvgAggregator._percentage := [1 / 4; 3 / 4] ++ [5; 7] |}
    [[[2; 4]; [1]]; [[4; 8]; [3]]]
  = WeightedFedAvgAggregator.aggregate_weights
      {| WeightedFedAvgAggregator._percentage := [1 / 4; 3 / 4] |}
      [[[2; 4]; [1]]; [[4; 8]; [3]]].
Proof.
  apply weighted_ignores_extra_weights. simpl. lia.
Defined.

(** X8: in exact arithmetic (the rounding of floating-point operations aside),
    with non-negative weights that sum to 1, one per node, every entry of
    the WeightedMean aggregate lies between the smallest and the largest
    value the nodes hold at that entry. *)
Theorem weighted_within_bounds (lo hi : Q) (ws : list Q)
    (clients_params : list params) (layer j : nat) :
  clients_params ≠ [] -> identical_shape clients_params ->
  length ws = length clients_params ->
  Forall (fun w => 0 <= w) ws -> Qsum ws == 1 ->
  (forall p, p ∈ clients_params -> lo <= entry p layer j <= hi) ->
  exists W,
    WeightedFedAvgAggregator.aggregate_weights
      {| WeightedFedAvgAggregator._percentage := ws |} clients_params = Ok W
    /\ ((layer < length W)%nat -> lo <= entry W layer j <= hi).
Proof.
  intros Hne Hid Hlen Hpos Hsum Hb.
  destruct clients_params as [|p cps]; [done|].
  destruct ws as [|w ws]; [done|].
  pose proof (identical_has_shape _ _ Hid) as Hs.
  eexists. split; [apply (Weighted_regular (dims p)); [done|simpl in Hlen; lia]|].
  intros Hl. rewrite sum_rows_length in Hl.
  rewrite weighted_regular_entry by done. unfold weighted_entry. split.
  - assert (lo == Qsum (w :: ws) * lo) as -> by (rewrite Hsum; ring).
    apply (weighted_sum_lower lo (w :: ws) (fun p => entry p layer j) (p :: cps));
      [done|done|]. intros q Hq. by apply Hb.
  - assert (hi == Qsum (w :: ws) * hi) as -> by (rewrite Hsum; ring).
    apply (weighted_sum_upper hi (w :: ws) (fun p => entry p layer j) (p :: cps));
      [done|done|]. intros q Hq. by apply Hb.
Qed.

Lemma weighted_within_bounds_witness :
  exists W,
    WeightedFedAvgAggregator.aggregate_weights
      {| WeightedFedAvgAggregator._percentage := [1 / 4; 3 / 4] |}
      [[[2; 4]; [1]]; [[4; 8]; [3]]] = Ok W
    /\ ((0 < length W)%nat -> 4 <= entry W 0 1 <= 8).
Proof.
  apply weighted_within_bounds; [discriminate| |reflexivity| |reflexivity|].
  - apply (has_shape_identical [2; 1]%nat). repeat constructor.
  - repeat constructor; discriminate.
  - intros p Hp. repeat (apply elem_of_cons in Hp as [->|Hp]); [| |by apply elem_of_nil in Hp];
      split; discriminate.
Defined.

(** ** Cluster federated averaging *)

Section MoreCluster.

Context {point rng : Type}.
Variable KMeans_fit : nat -> list point -> M rng (list point).

Lemma concat_Permutation (l l' : list (list point)) :
  l ≡ₚ l' -> concat l ≡ₚ concat l'.
Proof.
  induction 1 as [|x l1 l2 _ IH|x y l|l1 l2 l3 _ IH1 _ IH2]; simpl.
  - done.
  - by rewrite IH.
  - rewrite !(assoc app). by rewrite (Permutation_app_comm y x).
  - by rewrite IH1.
Qed.

Lemma length_concat_uniform k (l : list (list point)) :
  Forall (fun c => length c = k) l -> length (concat l) = (length l * k)%nat.
Proof.
  induction 1 as [|c l Hc _ IH]; [done|].
  simpl. rewrite length_app, IH, Hc. done.
Qed.

(** X9: on the empty list of nodes the aggregator raises [ValueError]; the
    re-clustering is not run and the global generator is left as it was,
    also when the call is made twice. *)
Theorem cluster_consensus_empty_input (g : rng) :
  ClusterFedAvgAggregator.aggregate_weights KMeans_fit [] g = (Raise ValueError, g)
  /\ ClusterFedAvgAggregator.aggregate_twice KMeans_fit [] g = (Raise ValueError, g).
Proof. by split. Qed.

(** X10: when every node holds [k] centroids, the order of the nodes reaches the
    re-clustering only as the order of the points: for a list of [n] nodes
    and any permutation of it, the re-clustering is asked for [k] clusters
    of [n * k] points, the points of one call being a permutation of the
    points of the other. *)
Theorem cluster_consensus_node_order (k : nat)
    (clients_params permuted : list (list point)) (g : rng) :
  clients_params ≠ [] ->
  Forall (fun c => length c = k) clients_params ->
  clients_params ≡ₚ permuted ->
  exists X X',
    X ≡ₚ X' /\ length X = (length clients_params * k)%nat
    /\ ClusterFedAvgAggregator.aggregate_weights KMeans_fit clients_params g
       = KMeans_fit k X g
    /\ ClusterFedAvgAggregator.aggregate_weights KMeans_fit permuted g
       = KMeans_fit k X' g.
Proof.
  intros Hne Hk Hperm.
  assert (Forall (fun c => length c = k) permuted) as Hk' by (by rewrite <- Hperm).
  destruct clients_params as [|c cps]; [done|].
  destruct permuted as [|c' cps']; [by apply Permutation_nil_r in Hperm|].
  exists (concat (c :: cps)), (concat (c' :: cps')).
  split; [by apply concat_Permutation|].
  split; [by apply length_concat_uniform|].
  rewrite !cluster_aggregate_unfold.
  apply Forall_cons in Hk as [-> _]. apply Forall_cons in Hk' as [Hc' _].
  by rewrite Hc'.
Qed.

End MoreCluster.

Lemma cluster_consensus_node_order_witness :
  exists X X',
    X ≡ₚ X' /\ length X = (length [[[0]; [1]]; [[10]; [11]]] * 2)%nat
    /\ ClusterFedAvgAggregator.aggregate_weights lloyd_KMeans
         [[[0]; [1]]; [[10]; [11]]] 3%nat
       = lloyd_KMeans 2 X 3%nat
    /\ ClusterFedAvgAggregator.aggregate_weights lloyd_KMeans
         [[[10]; [11]]; [[0]; [1]]] 3%nat
       = lloyd_KMeans 2 X' 3%nat.
Proof.
  apply (cluster_consensus_node_order lloyd_KMeans 2 [[[0]; [1]]; [[10]; [11]]]
           [[[10]; [11]]; [[0]; [1]]] 3%nat); [discriminate| |apply Permutation_swap].
  repeat constructor.
Defined.

(** ** The shuffle of a node's labels *)

Definition result_map {A B} (f : A -> B) (r : result A) : result B :=
  match r with
  | Ok a => Ok (f a)
  | Raise e => Raise e
  end.

(** The labels of an object renamed by [f], its features kept. *)
Definition relabel {Features A B} (f : A -> B)
    (labeled_data : Private.LabeledData (Features := Features) (Label := A))
  : Private.LabeledData (Features := Features) (Label := B) :=
  {| Private.data := Private.data labeled_data;
     Private.label := map f (Private.label labeled_data) |}.

Section MoreShuffle.

Context {Features rng : Type}.
Variable randbelow : nat -> rng -> nat * rng.

Abbreviation shuffle_apply Label :=
  (Private.apply (FederatedTransformation :=
                    Private.ShuffleNode_transformation
                      (Features := Features) (Label := Label) randbelow)
     Private.MkShuffleNode).

(** The shuffle of a label array whose kind is given: [views] says whether
    its elements are rows read as views. *)
Abbreviation shuffle_apply_as views Label :=
  (Private.apply (FederatedTransformation :=
                    Private.ShuffleNode_transformation
                      (Features := Features) (Label := Label)
                      (label_array := views) randbelow)
     Private.MkShuffleNode).

Lemma getitem_fmap {A B} (f : A -> B) (x : list A) i :
  getitem (map f x) i = result_map f (getitem x i).
Proof.
  unfold getitem. change (map f x) with (f <$> x).
  rewrite list_lookup_fmap. by destruct (x !! i).
Qed.

Lemma swap_fmap {A B} (f : A -> B) (x : list A) i j :
  Private.swap (map f x) i j = result_map (map f) (Private.swap x i j).
Proof.
  unfold Private.swap. rewrite !getitem_fmap.
  destruct (getitem x j) as [xj|e]; [|done]. simpl.
  destruct (getitem x i) as [xi|e]; [|done]. simpl.
  change (map f) with (fmap (M := list) f). by rewrite !list_fmap_insert.
Qed.

Lemma copy_rows_fmap {A B} (f : A -> B) (x : list A) i j :
  Private.copy_rows (map f x) i j = result_map (map f) (Private.copy_rows x i j).
Proof.
  unfold Private.copy_rows. rewrite !getitem_fmap.
  destruct (getitem x j) as [xj|e]; [|done]. simpl.
  destruct (getitem x i) as [xi|e]; [|done]. simpl.
  change (map f x) with (f <$> x). rewrite <- list_fmap_insert.
  change (f <$> <[i:=xj]> x) with (map f (<[i:=xj]> x)). rewrite getitem_fmap.
  destruct (getitem (<[i:=xj]> x) i) as [xi'|e]; [|done]. simpl.
  change (map f) with (fmap (M := list) f). by rewrite !list_fmap_insert.
Qed.

Lemma exchange_fmap {A B} (views : bool) (f : A -> B) (x : list A) i j :
  Private.exchange (H := views) (map f x) i j
  = result_map (map f) (Private.exchange (H := views) x i j).
Proof.
  unfold Private.exchange, Private.rows_are_views.
  destruct views; [apply copy_rows_fmap|apply swap_fmap].
Qed.

Lemma shuffle_loop_fmap {A B} (views : bool) (f : A -> B) indices :
  forall (x : list A) g,
  Private.shuffle_loop (H := views) randbelow indices (map f x) g
  = let (r, g') := Private.shuffle_loop (H := views) randbelow indices x g in
    (result_map (map f) r, g').
Proof.
  induction indices as [|i indices IH]; intros x g; [done|].
  cbn [Private.shuffle_loop]. unfold mbind, M_bind, Private.draw_below, pure_result.
  destruct (randbelow (i + 1) g) as [j g1]. rewrite exchange_fmap.
  destruct (Private.exchange x i j) as [x'|e]; [|done]. simpl. apply IH.
Qed.

Lemma random_shuffle_fmap {A B} (views : bool) (f : A -> B) (x : list A) g :
  Private.random_shuffle (H := views) randbelow (map f x) g
  = let (r, g') := Private.random_shuffle (H := views) randbelow x g in
    (result_map (map f) r, g').
Proof.
  unfold Private.random_shuffle. rewrite length_map. apply shuffle_loop_fmap.
Qed.

(** X11: with no label or one label there is nothing to exchange: the object is
    returned as it is and no number is drawn from the generator. *)
Theorem shuffle_node_short {Label}
    (labeled_data : Private.LabeledData (Features := Features) (Label := Label))
    (g : rng) :
  (length (Private.label labeled_data) <= 1)%nat ->
  shuffle_apply Label labeled_data g = (Ok labeled_data, g).
Proof.
  intros Hlen. destruct labeled_data as [d l]. cbn [Private.label] in Hlen.
  unfold Private.apply, Private.ShuffleNode_transformation, Private.random_shuffle.
  cbn [Private.label Private.data].
  replace (length l - 1)%nat with 0%nat by lia. done.
Qed.

(** X12: the shuffle does not look at the labels: for label arrays of one
    kind (both lists or one-dimensional arrays, or both arrays of two
    dimensions read by row views), renaming the labels by any function [f]
    before the shuffle gives the same as renaming them after it, the
    generator left in the same state. *)
Theorem shuffle_node_natural {A B} (views : bool) (f : A -> B)
    (labeled_data : Private.LabeledData (Features := Features) (Label := A))
    (g : rng) :
  shuffle_apply_as views B (relabel f labeled_data) g
  = let (r, g') := shuffle_apply_as views A labeled_data g in
    (result_map (relabel f) r, g').
Proof.
  destruct labeled_data as [d l].
  unfold Private.apply, Private.ShuffleNode_transformation, relabel.
  cbn [Private.label Private.data]. unfold mbind, M_bind.
  rewrite random_shuffle_fmap.
  by destruct (Private.random_shuffle randbelow l g) as [[l'|e] g'].
Qed.

(** X13: the numbers drawn by the shuffle depend on how many labels there are
    and on nothing else: two objects with the same number of labels leave
    the generator in the same state. *)
Theorem shuffle_node_draws {A B}
    (d1 : Private.LabeledData (Features := Features) (Label := A))
    (d2 : Private.LabeledData (Features := Features) (Label := B))
    (g : rng) :
  length (Private.label d1) = length (Private.label d2) ->
  (shuffle_apply A d1 g).2 = (shuffle_apply B d2 g).2.
Proof.
  intros Hlen.
  pose proof (H1 := random_shuffle_fmap false (fun _ : A => tt) (Private.label d1) g).
  pose proof (H2 := random_shuffle_fmap false (fun _ : B => tt) (Private.label d2) g).
  assert (map (fun _ : A => tt) (Private.label d1)
          = map (fun _ : B => tt) (Private.label d2)) as E.
  { transitivity (replicate (length (Private.label d1)) tt).
    - clear. induction (Private.label d1); simpl; congruence.
    - rewrite Hlen. clear. induction (Private.label d2); simpl; congruence. }
  rewrite E, H2 in H1.
  unfold Private.apply, Private.ShuffleNode_transformation, mbind, M_bind.
  change (@Private.elements_by_value A) with (false : Private.LabelArray A).
  change (@Private.elements_by_value B) with (false : Private.LabelArray B).
  destruct (Private.random_shuffle (H := false) randbelow (Private.label d1) g)
    as [[l1|e1] g1],
           (Private.random_shuffle (H := false) randbelow (Private.label d2) g)
    as [[l2|e2] g2];
    simpl in *; congruence.
Qed.

End MoreShuffle.

Lemma shuffle_node_short_witness :
  Private.apply (FederatedTransformation := Private.ShuffleNode_transformation lcg_randbelow)
    Private.MkShuffleNode {| Private.data := [1; 2]; Private.label := [7%nat] |} 5%nat
  = (Ok {| Private.data := [1; 2]; Private.label := [7%nat] |}, 5%nat).
Proof.
  apply (shuffle_node_short lcg_randbelow
           {| Private.data := [1; 2]; Private.label := [7%nat] |} 5%nat).
  simpl. lia.
Defined.

Lemma shuffle_node_draws_witness :
  (Private.apply (FederatedTransformation := Private.ShuffleNode_transformation lcg_randbelow)
     Private.MkShuffleNode {| Private.data := [1; 2]; Private.label := [7; 8; 9]%nat |} 1%nat).2
  = (Private.apply (FederatedTransformation := Private.ShuffleNode_transformation lcg_randbelow)
       Private.MkShuffleNode {| Private.data := [1; 2]; Private.label := [true; false; true] |} 1%nat).2.
Proof.
  apply (shuffle_node_draws lcg_randbelow
           {| Private.data := [1; 2]; Private.label := [7; 8; 9]%nat |}
           {| Private.data := [1; 2]; Private.label := [true; false; true] |} 1%nat).
  reflexivity.
Defined.

(** ** The poisoning attack *)

Section MoreAttack.

Context {Features Label rng : Type}.
Context {label_array : Private.LabelArray Label}.
Variable randbelow : nat -> rng -> nat * rng.
Variable random_sample : list nat -> nat -> rng -> list nat * rng.

Hypothesis randbelow_lt : forall n g, (0 < n)%nat -> ((randbelow n g).1 < n)%nat.

Hypothesis random_sample_spec : forall population k g,
  (k <= length population)%nat ->
  (random_sample population k g).1 ⊆+ population
  /\ length (random_sample population k g).1 = k.

Abbreviation LabeledData' := (Private.LabeledData (Features := Features) (Label := Label)).
Abbreviation DataNode' := (Private.DataNode (Features := Features) (Label := Label)).
Abbreviation world' := (Private.world (Features := Features) (Label := Label) (rng := rng)).

(** The nodes own their data: each object is there and no two nodes hold
    the same one. *)
Definition owns_data (federated_data : list DataNode') (w : world') : Prop :=
  NoDup (map Private.private_data federated_data)
  /\ Forall (fun node => is_Some (Private.heap w !! Private.private_data node))
            federated_data.

(** What the shuffle keeps of an object: its features, the number of its
    labels, and no label that was not there; on labels read by value, the
    multiset of the labels. *)
Definition kept_by_shuffle (before after : LabeledData') : Prop :=
  Private.data after = Private.data before
  /\ length (Private.label after) = length (Private.label before)
  /\ (forall a, a ∈ Private.label after -> a ∈ Private.label before)
  /\ (Private.rows_are_views (Label := Label) = false ->
        Private.label after ≡ₚ Private.label before).

Lemma kept_by_shuffle_refl (d : LabeledData') : kept_by_shuffle d d.
Proof. by repeat split. Qed.

Lemma shuffled_from_spec (before after : LabeledData') :
  shuffled_from randbelow before after -> kept_by_shuffle before after.
Proof.
  intros (g & g' & E).
  destruct (ShuffleNode_apply_general randbelow randbelow_lt (H := label_array) before g)
    as (after' & g'' & E' & Hkept).
  rewrite E in E'. by injection E' as -> _.
Qed.

(** X15: the attack touches labels only: whatever the percentage, and whether
    the call returns or raises, every node keeps its features and the number
    of its labels and holds no label it did not hold before; on labels read
    by value (lists, one-dimensional arrays) it keeps the multiset of its
    labels.  Every object that belongs to no node of the federation is left
    as it was. *)
Theorem attack_preserves_features_and_labels
    (self : Private.FederatedPoisoningDataAttack)
    (federated_data : list DataNode') (w : world') :
  owns_data federated_data w ->
  exists r w',
    Private.apply_attack randbelow random_sample self federated_data w = (r, w')
    /\ (forall node before,
          node ∈ federated_data ->
          Private.heap w !! Private.private_data node = Some before ->
          exists after,
            Private.heap w' !! Private.private_data node = Some after
            /\ kept_by_shuffle before after)
    /\ (forall l,
          (forall node, node ∈ federated_data -> Private.private_data node ≠ l) ->
          Private.heap w' !! l = Private.heap w !! l).
Proof.
  intros [Hnd Halloc].
  assert (forall r, Private.apply_attack randbelow random_sample self federated_data w
                    = (r, w) ->
          exists r w',
            Private.apply_attack randbelow random_sample self federated_data w = (r, w')
            /\ (forall node before,
                  node ∈ federated_data ->
                  Private.heap w !! Private.private_data node = Some before ->
                  exists after,
                    Private.heap w' !! Private.private_data node = Some after
                    /\ kept_by_shuffle before after)
            /\ (forall l,
                  (forall node, node ∈ federated_data -> Private.private_data node ≠ l) ->
                  Private.heap w' !! l = Private.heap w !! l)) as Hsame.
  { intros r E. exists r, w. split; [done|]. split; [|done].
    intros node before _ Hbefore. exists before. split; [done|].
    apply kept_by_shuffle_refl. }
  destruct (Private.adversary_count (Private._percentage self) (length federated_data))
    as [k|e] eqn:Hcount; [|by eapply Hsame, apply_attack_count_raises].
  destruct (decide (0 <= k <= Z.of_nat (length federated_data))%Z) as [Hk|Hk];
    [|by eapply Hsame, apply_attack_raises].
  destruct (apply_attack_run randbelow random_sample randbelow_lt random_sample_spec
              self federated_data w k Hcount Hnd Halloc Hk)
    as (chosen & w' & Erun & _ & _ & Hframe & Hpoison).
  eexists _, w'. split; [exact Erun|]. split.
  - intros node before Hin Hbefore.
    apply list_elem_of_lookup in Hin as [i Hi].
    destruct (decide (i ∈ chosen)) as [Hc|Hc].
    + destruct (Hpoison i node before Hi Hc Hbefore) as (after & Hafter & Hsh).
      exists after. split; [done|]. by apply shuffled_from_spec.
    + exists before. split; [|apply kept_by_shuffle_refl]. rewrite Hframe; [done|].
      intros i' node' Hi' Hloc.
      assert (i' = i) as ->; [|done].
      eapply (NoDup_lookup (map Private.private_data federated_data)); [done|..].
      * by rewrite list_lookup_fmap, Hi'.
      * rewrite list_lookup_fmap, Hi. simpl. by rewrite Hloc.
  - intros l Hl. apply Hframe. intros i node Hi Hloc. exfalso.
    apply (Hl node); [|done]. apply list_elem_of_lookup. eauto.
Qed.

(** X16: when [int(percentage / 100 * n)], as binary64 arithmetic gives it, is
    zero, no adversary is recorded and no object is changed at all. *)
Theorem attack_no_adversaries (self : Private.FederatedPoisoningDataAttack)
    (federated_data : list DataNode') (w : world') :
  owns_data federated_data w ->
  Private.adversary_count (Private._percentage self) (length federated_data)
  = Ok 0%Z ->
  exists self' w',
    Private.apply_attack randbelow random_sample self federated_data w = (Ok self', w')
    /\ Private.adversaries self' = []
    /\ Private.heap w' = Private.heap w.
Proof.
  intros [Hnd Halloc] Hk.
  destruct (apply_attack_run randbelow random_sample randbelow_lt random_sample_spec
              self federated_data w 0%Z Hk Hnd Halloc)
    as (chosen & w' & Erun & _ & Hlen & Hframe & _); [lia|].
  apply nil_length_inv in Hlen as ->.
  eexists _, w'. split; [exact Erun|]. split; [done|].
  apply map_eq. intros l. apply Hframe. intros i node _ _.
  apply not_elem_of_nil.
Qed.

(** X17: when [int(percentage / 100 * n)], as binary64 arithmetic gives it, is
    the number of nodes, the recorded adversaries are the positions of all
    the nodes, in some order, and every node holds data made by the shuffle
    from its own. *)
Theorem attack_all_nodes (self : Private.FederatedPoisoningDataAttack)
    (federated_data : list DataNode') (w : world') :
  owns_data federated_data w ->
  Private.adversary_count (Private._percentage self) (length federated_data)
  = Ok (Z.of_nat (length federated_data)) ->
  exists self' w',
    Private.apply_attack randbelow random_sample self federated_data w = (Ok self', w')
    /\ Private.adversaries self' ≡ₚ seq 0 (length federated_data)
    /\ forall node before,
         node ∈ federated_data ->
         Private.heap w !! Private.private_data node = Some before ->
         exists after,
           Private.heap w' !! Private.private_data node = Some after
           /\ shuffled_from randbelow before after.
Proof.
  intros [Hnd Halloc] Hk.
  destruct (apply_attack_run randbelow random_sample randbelow_lt random_sample_spec
              self federated_data w _ Hk Hnd Halloc)
    as (chosen & w' & Erun & Hsub & Hlen & _ & Hpoison); [lia|].
  rewrite Nat2Z.id in Hlen.
  assert (chosen ≡ₚ seq 0 (length federated_data)) as Hperm.
  { apply submseteq_length_Permutation; [done|]. rewrite length_seq. lia. }
  eexists _, w'. split; [exact Erun|]. split; [done|].
  intros node before Hin Hbefore.
  apply list_elem_of_lookup in Hin as [i Hi].
  apply (Hpoison i node before Hi); [|done].
  rewrite Hperm. apply elem_of_seq. apply lookup_lt_Some in Hi. lia.
Qed.

End MoreAttack.

Definition five_world : Private.world :=
  {| Private.heap := five_objects; Private.random_state := 1%nat |}.

Lemma five_nodes_own_data : owns_data five_nodes five_world.
Proof.
  split; [compute_done|]. repeat constructor; eexists; vm_compute; reflexivity.
Qed.

Lemma attack_preserves_features_and_labels_witness :
  exists r w',
    Private.apply_attack lcg_randbelow lcg_sample attack_40 five_nodes five_world
    = (r, w')
    /\ (forall node before,
          node ∈ five_nodes ->
          Private.heap five_world !! Private.private_data node = Some before ->
          exists after,
            Private.heap w' !! Private.private_data node = Some after
            /\ kept_by_shuffle before after)
    /\ (forall l,
          (forall node, node ∈ five_nodes -> Private.private_data node ≠ l) ->
          Private.heap w' !! l = Private.heap five_world !! l).
Proof.
  apply (attack_preserves_features_and_labels lcg_randbelow lcg_sample
           lcg_randbelow_lt lcg_sample_spec attack_40 five_nodes five_world).
  apply five_nodes_own_data.
Defined.

Lemma attack_no_adversaries_witness :
  exists self' w',
    Private.apply_attack lcg_randbelow lcg_sample
      {| Private._percentage := float_of_int 10; Private._adversaries := [] |}
      five_nodes five_world = (Ok self', w')
    /\ Private.adversaries self' = []
    /\ Private.heap w' = Private.heap five_world.
Proof.
  apply (attack_no_adversaries lcg_randbelow lcg_sample
           lcg_randbelow_lt lcg_sample_spec
           {| Private._percentage := float_of_int 10; Private._adversaries := [] |}
           five_nodes five_world).
  - apply five_nodes_own_data.
  - vm_compute. reflexivity.
Defined.

Lemma attack_all_nodes_witness :
  exists self' w',
    Private.apply_attack lcg_randbelow lcg_sample
      {| Private._percentage := float_of_int 100; Private._adversaries := [] |}
      five_nodes five_world = (Ok self', w')
    /\ Private.adversaries self' ≡ₚ seq 0 (length five_nodes)
    /\ forall node before,
         node ∈ five_nodes ->
         Private.heap five_world !! Private.private_data node = Some before ->
         exists after,
           Private.heap w' !! Private.private_data node = Some after
           /\ shuffled_from lcg_randbelow before after.
Proof.
  apply (attack_all_nodes lcg_randbelow lcg_sample
           lcg_randbelow_lt lcg_sample_spec
           {| Private._percentage := float_of_int 100; Private._adversaries := [] |}
           five_nodes five_world).
  - apply five_nodes_own_data.
  - reflexivity.
Defined.

(** ** The transformations of the aggregation notebook *)

Module Transformations.

(** A numpy array of numbers: its shape and its entries in row-major
    order. *)
Record ndarray := { shape : list nat; flat : list Q }.

(** [a.size]: the product of the dimensions. *)
Definition size_of (dimensions : list nat) : nat := foldr Nat.mul 1%nat dimensions.
Definition size (a : ndarray) : nat := size_of (shape a).

(** [a.ndim]: the number of dimensions. *)
Definition ndim (a : ndarray) : nat := length (shape a).

(** An array holds as many entries as its shape says. *)
Definition well_formed (a : ndarray) : Prop := length (flat a) = size a.

(** [np.reshape(a, newshape)]: the entries are kept, in the same order; a
    shape of another size is refused. *)
Definition np_reshape (a : ndarray) (newshape : list nat) : result ndarray :=
  if Nat.eqb (size_of newshape) (size a)
  then Ok {| shape := newshape; flat := flat a |}
  else Raise ValueError.

Inductive Reshape := MkReshape.

#[global] Instance Reshape_transformation {Label rng} :
  Private.FederatedTransformation (Features := ndarray) (Label := Label) (rng := rng)
    Reshape :=
  fun self labeled_data =>
    pure_result
      (let data := Private.data labeled_data in
       d0 ← getitem (shape data) 0;
       d1 ← getitem (shape data) 1;
       d2 ← getitem (shape data) 2;
       reshaped ← np_reshape data [d0; d1; d2; 1%nat];
       Ok {| Private.data := reshaped; Private.label := Private.label labeled_data |}).

(** [Normalize(mean, std)].  The division is the division of rationals: a
    zero [std], for which numpy yields infinities and NaN, is outside the
    model. *)
Record Normalize := { __mean : Q; __std : Q }.

#[global] Instance Normalize_transformation {Label rng} :
  Private.FederatedTransformation (Features := ndarray) (Label := Label) (rng := rng)
    Normalize :=
  fun self labeled_data =>
    pure_result
      (let data := Private.data labeled_data in
       Ok {| Private.data :=
               {| shape := shape data;
                  flat := map (fun x => (x - __mean self) / __std self) (flat data) |};
             Private.label := Private.label labeled_data |}).

(** [np.mean(a)] and the square of [np.std(a)], over all the entries. *)
Definition np_mean (a : ndarray) : Q :=
  Qsum (flat a) / inject_Z (Z.of_nat (length (flat a))).

Definition np_var (a : ndarray) : Q :=
  Qsum (map (fun x => (x - np_mean a) * (x - np_mean a)) (flat a))
  / inject_Z (Z.of_nat (length (flat a))).

End Transformations.

Example reshape_run :
  Private.apply (Label := nat) (rng := nat) Transformations.MkReshape
    {| Private.data := {| Transformations.shape := [1; 2; 2]%nat;
                          Transformations.flat := [1; 2; 3; 4] |};
       Private.label := [7%nat] |} 0%nat
  = (Ok {| Private.data := {| Transformations.shape := [1; 2; 2; 1]%nat;
                              Transformations.flat := [1; 2; 3; 4] |};
           Private.label := [7%nat] |}, 0%nat).
Proof. reflexivity. Qed.

Example normalize_run :
  Private.apply (Label := nat) (rng := nat)
    {| Transformations.__mean := 2; Transformations.__std := 2 |}
    {| Private.data := {| Transformations.shape := [2]%nat;
                          Transformations.flat := [0; 4] |};
       Private.label := [7%nat] |} 0%nat
  = (Ok {| Private.data := {| Transformations.shape := [2]%nat;
                              Transformations.flat := [(0 - 2) / 2; (4 - 2) / 2] |};
           Private.label := [7%nat] |}, 0%nat).
Proof. reflexivity. Qed.

Section TransformationProperties.

Import Transformations.

Context {Label rng : Type}.

Abbreviation LabeledArray := (Private.LabeledData (Features := ndarray) (Label := Label)).

Abbreviation reshape_apply :=
  (Private.apply (Features := ndarray) (Label := Label) (rng := rng) MkReshape).

Abbreviation normalize_apply nz :=
  (Private.apply (Features := ndarray) (Label := Label) (rng := rng)
     (T := Normalize) nz).

Lemma QsumQ_ext {A} (f g : A -> Q) (l : list A) :
  (forall x, f x == g x) -> Qsum (map f l) == Qsum (map g l).
Proof.
  intros H. induction l as [|x l IH]; [reflexivity|].
  cbn [map]. by rewrite !Qsum_cons, H, IH.
Qed.

Lemma QsumQ_scale {A} c (f : A -> Q) (l : list A) :
  Qsum (map (fun x => c * f x) l) == c * Qsum (map f l).
Proof.
  induction l as [|x l IH].
  - simpl. ring.
  - cbn [map]. rewrite !Qsum_cons, IH. ring.
Qed.

Lemma QsumQ_shift m (l : list Q) :
  Qsum (map (fun x => x - m) l) == Qsum l - inject_Z (Z.of_nat (length l)) * m.
Proof.
  induction l as [|x l IH].
  - simpl. ring.
  - cbn [map length]. rewrite !Qsum_cons, IH.
    rewrite Nat2Z.inj_succ. unfold Z.succ. rewrite inject_Z_plus. ring.
Qed.

(** X18: on a well-formed array of three dimensions [Reshape] returns: the shape
    gets a last dimension 1, the entries and their order are kept, the array
    is well-formed again, the labels and the generator are untouched. *)
Theorem reshape_three_dimensions (labeled_data : LabeledArray) (g : rng) d0 d1 d2 :
  shape (Private.data labeled_data) = [d0; d1; d2] ->
  well_formed (Private.data labeled_data) ->
  exists reshaped,
    reshape_apply labeled_data g
    = (Ok {| Private.data := reshaped; Private.label := Private.label labeled_data |}, g)
    /\ shape reshaped = [d0; d1; d2; 1%nat]
    /\ flat reshaped = flat (Private.data labeled_data)
    /\ well_formed reshaped.
Proof.
  intros Hshape Hwf. destruct labeled_data as [[s f] l].
  cbn [Private.data shape] in *. subst s.
  exists {| shape := [d0; d1; d2; 1%nat]; flat := f |}.
  unfold Private.apply, Reshape_transformation, pure_result, np_reshape, size.
  cbn [Private.data Private.label shape flat getitem lookup list_lookup
       mbind result_bind].
  assert (size_of [d0; d1; d2; 1%nat] = size_of [d0; d1; d2]) as E
    by (unfold size_of; simpl; lia).
  rewrite E, Nat.eqb_refl. cbn [mbind result_bind].
  repeat split. unfold well_formed, size in *. cbn [shape flat] in *. lia.
Qed.

(** X19: on an array of fewer than three dimensions [Reshape] raises
    [IndexError]; the generator is untouched. *)
Theorem reshape_fewer_dimensions (labeled_data : LabeledArray) (g : rng) :
  (ndim (Private.data labeled_data) < 3)%nat ->
  reshape_apply labeled_data g = (Raise IndexError, g).
Proof.
  intros Hdim. destruct labeled_data as [[s f] l]. unfold ndim in Hdim.
  cbn [Private.data shape] in *.
  unfold Private.apply, Reshape_transformation, pure_result.
  destruct s as [|d0 [|d1 [|d2 s]]]; try done. simpl in Hdim. lia.
Qed.

(** X20: [Reshape] is idempotent: whenever it returns, on any array, the entries,
    the size and the labels are those it was given, and applying it again
    returns the same object. *)
Theorem reshape_idempotent (labeled_data reshaped : LabeledArray) (g g' : rng) :
  reshape_apply labeled_data g = (Ok reshaped, g') ->
  flat (Private.data reshaped) = flat (Private.data labeled_data)
  /\ size (Private.data reshaped) = size (Private.data labeled_data)
  /\ Private.label reshaped = Private.label labeled_data
  /\ reshape_apply reshaped g' = (Ok reshaped, g').
Proof.
  destruct labeled_data as [[s f] l].
  unfold Private.apply, Reshape_transformation, pure_result, np_reshape, size.
  cbn [Private.data Private.label shape flat].
  destruct s as [|d0 [|d1 [|d2 s]]]; try done.
  cbn [getitem lookup list_lookup mbind result_bind].
  destruct (Nat.eqb (size_of [d0; d1; d2; 1%nat]) (size_of (d0 :: d1 :: d2 :: s)))
    eqn:Esize; [|done].
  apply Nat.eqb_eq in Esize.
  cbn [mbind result_bind]. intros [= <- <-].
  cbn [Private.data Private.label shape flat getitem lookup list_lookup
       mbind result_bind].
  by rewrite Nat.eqb_refl.
Qed.

(** X21: in exact arithmetic (floating-point rounding aside), [Normalize] with
    the mean of the data it is applied to and any non-zero [std] centres and
    scales them: the shape and the labels are kept, the normalized entries
    have mean 0, and their variance times [std * std] is the variance of the
    data. *)
Theorem normalize_centres_and_scales
    (nz : Normalize) (labeled_data : LabeledArray) (g : rng) :
  flat (Private.data labeled_data) ≠ [] ->
  __mean nz == np_mean (Private.data labeled_data) ->
  ~ __std nz == 0 ->
  exists normalized,
    normalize_apply nz labeled_data g
    = (Ok {| Private.data := normalized; Private.label := Private.label labeled_data |}, g)
    /\ shape normalized = shape (Private.data labeled_data)
    /\ length (flat normalized) = length (flat (Private.data labeled_data))
    /\ np_mean normalized == 0
    /\ np_var normalized * (__std nz * __std nz)
       == np_var (Private.data labeled_data).
Proof.
  destruct nz as [m s]. destruct labeled_data as [[sh l] lbl].
  cbn [Private.data Private.label shape flat __mean __std].
  intros Hne Hm Hs0.
  eexists. split; [reflexivity|]. cbn [shape flat].
  split; [done|]. split; [by rewrite length_map|].
  unfold np_var, np_mean in *. cbn [flat] in *. rewrite !length_map.
  set (n := inject_Z (Z.of_nat (length l))) in *.
  assert (~ n == 0) as Hn.
  { apply inject_nat_nonzero. destruct l; [done|simpl; lia]. }
  assert (Qsum l == n * m) as Hsum.
  { rewrite Hm. field. exact Hn. }
  assert (Qsum (map (fun x => (x - m) / s) l) == 0) as Hzero.
  { rewrite (QsumQ_ext _ (fun x => (1 / s) * (x - m))) by (intros x; by field).
    rewrite QsumQ_scale, QsumQ_shift. fold n. rewrite Hsum. by field. }
  cbn [Private.data flat]. fold n. split.
  - rewrite Hzero. by field.
  - rewrite map_map.
    rewrite (QsumQ_ext _ (fun x => (1 / (s * s))
                                   * ((x - Qsum l / n) * (x - Qsum l / n)))).
    + rewrite QsumQ_scale. field. by split.
    + intros x. rewrite Hzero, <- Hm. cbn [__mean __std]. field. by split.
Qed.

(** X22: in exact arithmetic (the rounding of floating-point operations aside),
    two normalizations in a row are one normalization: after
    [Normalize(m1, s1)], [Normalize(m2, s2)] gives what
    [Normalize(m1 + s1 * m2, s1 * s2)] gives at once. *)
Theorem normalize_compose (nz1 nz2 : Normalize) (labeled_data : LabeledArray) (g : rng) :
  ~ __std nz1 == 0 -> ~ __std nz2 == 0 ->
  exists first second at_once,
    normalize_apply nz1 labeled_data g = (Ok first, g)
    /\ normalize_apply nz2 first g = (Ok second, g)
    /\ normalize_apply
         {| __mean := __mean nz1 + __std nz1 * __mean nz2;
            __std := __std nz1 * __std nz2 |} labeled_data g = (Ok at_once, g)
    /\ shape (Private.data second) = shape (Private.data at_once)
    /\ block_eq (flat (Private.data second)) (flat (Private.data at_once))
    /\ Private.label second = Private.label at_once.
Proof.
  destruct nz1 as [m1 s1], nz2 as [m2 s2]. destruct labeled_data as [[sh l] lbl].
  cbn [__mean __std]. intros H1 H2.
  eexists _, _, _. split; [reflexivity|]. split; [reflexivity|].
  split; [reflexivity|]. cbn [Private.data Private.label shape flat __mean __std].
  split; [done|]. split; [|done].
  induction l as [|x l IH]; constructor; [|exact IH].
  by field.
Qed.

(** X23: [Reshape] and [Normalize] commute: applied in either order they return
    the same object or raise the same exception. *)
Theorem reshape_normalize_commute (nz : Normalize) (labeled_data : LabeledArray) (g : rng) :
  (reshaped ← reshape_apply labeled_data; normalize_apply nz reshaped) g
  = (normalized ← normalize_apply nz labeled_data; reshape_apply normalized) g.
Proof.
  destruct labeled_data as [[sh l] lbl].
  unfold mbind, M_bind, Private.apply, Reshape_transformation,
    Normalize_transformation, pure_result, np_reshape, size.
  cbn [Private.data Private.label shape flat].
  destruct sh as [|d0 [|d1 [|d2 sh]]]; try done.
  cbn [getitem lookup list_lookup mbind result_bind].
  by destruct (Nat.eqb (size_of [d0; d1; d2; 1%nat]) (size_of (d0 :: d1 :: d2 :: sh))).
Qed.

End TransformationProperties.

Definition sample_images : Private.LabeledData (Features := Transformations.ndarray) (Label := nat) :=
  {| Private.data := {| Transformations.shape := [1; 2; 2]%nat;
                        Transformations.flat := [0; 4; 4; 0] |};
     Private.label := [7%nat] |}.

Lemma reshape_three_dimensions_witness :
  exists reshaped,
    Private.apply (rng := nat) Transformations.MkReshape sample_images 0%nat
    = (Ok {| Private.data := reshaped; Private.label := Private.label sample_images |}, 0%nat)
    /\ Transformations.shape reshaped = [1; 2; 2; 1]%nat
    /\ Transformations.flat reshaped = Transformations.flat (Private.data sample_images)
    /\ Transformations.well_formed reshaped.
Proof.
  apply (reshape_three_dimensions (rng := nat) sample_images 0%nat 1 2 2);
    reflexivity.
Defined.

Lemma reshape_fewer_dimensions_witness :
  Private.apply (Label := nat) (rng := nat) Transformations.MkReshape
    {| Private.data := {| Transformations.shape := [2; 2]%nat;
                          Transformations.flat := [0; 4; 4; 0] |};
       Private.label := [7%nat] |} 0%nat
  = (Raise IndexError, 0%nat).
Proof.
  apply (reshape_fewer_dimensions (Label := nat) (rng := nat)).
  unfold Transformations.ndim. simpl. lia.
Defined.

Lemma reshape_idempotent_witness :
  let reshaped :=
    {| Private.data := {| Transformations.shape := [1; 2; 2; 1]%nat;
                          Transformations.flat := [0; 4; 4; 0] |};
       Private.label := [7%nat] |} in
  Transformations.flat (Private.data reshaped)
  = Transformations.flat (Private.data sample_images)
  /\ Transformations.size (Private.data reshaped)
     = Transformations.size (Private.data sample_images)
  /\ Private.label reshaped = Private.label sample_images
  /\ Private.apply (rng := nat) Transformations.MkReshape reshaped 0%nat
     = (Ok reshaped, 0%nat).
Proof.
  cbv zeta.
  apply (reshape_idempotent (rng := nat) sample_images _ 0%nat 0%nat).
  reflexivity.
Defined.

Lemma normalize_centres_and_scales_witness :
  exists normalized,
    Private.apply (rng := nat)
      {| Transformations.__mean := 2; Transformations.__std := 3 |} sample_images 0%nat
    = (Ok {| Private.data := normalized; Private.label := Private.label sample_images |}, 0%nat)
    /\ Transformations.shape normalized
       = Transformations.shape (Private.data sample_images)
    /\ length (Transformations.flat normalized)
       = length (Transformations.flat (Private.data sample_images))
    /\ Transformations.np_mean normalized == 0
    /\ Transformations.np_var normalized * (3 * 3)
       == Transformations.np_var (Private.data sample_images).
Proof.
  apply (normalize_centres_and_scales (rng := nat)
           {| Transformations.__mean := 2; Transformations.__std := 3 |}
           sample_images 0%nat).
  - discriminate.
  - reflexivity.
  - discriminate.
Defined.

Lemma normalize_compose_witness :
  exists first second at_once,
    Private.apply (rng := nat)
      {| Transformations.__mean := 2; Transformations.__std := 2 |} sample_images 0%nat
    = (Ok first, 0%nat)
    /\ Private.apply (rng := nat)
         {| Transformations.__mean := 1; Transformations.__std := 3 |} first 0%nat
       = (Ok second, 0%nat)
    /\ Private.apply (rng := nat)
         {| Transformations.__mean := 2 + 2 * 1; Transformations.__std := 2 * 3 |}
         sample_images 0%nat = (Ok at_once, 0%nat)
    /\ Transformations.shape (Private.data second)
       = Transformations.shape (Private.data at_once)
    /\ block_eq (Transformations.flat (Private.data second))
                (Transformations.flat (Private.data at_once))
    /\ Private.label second = Private.label at_once.
Proof.
  apply (normalize_compose (rng := nat)
           {| Transformations.__mean := 2; Transformations.__std := 2 |}
           {| Transformations.__mean := 1; Transformations.__std := 3 |}
           sample_images 0%nat); discriminate.
Defined.
